(** * The world tick engine of the Illarion server (src/World.cpp)

    A shallow embedding of [World.cpp]: the tick driver [turntheworld], the
    three population passes [checkPlayers], [checkMonsters] and [checkNPC],
    the bounded random wander of monsters, [getTargetsInRange],
    [initRespawns], [getNextIGDayTime] and [executeUserCommand].

    Member variables of [World] are fields of the record [World]; every
    function that mutates the world takes a [World] and returns the new one.
    Calls into classes that live outside [World.cpp] are kept as entries of an
    event trace, so that "which call happened, with which argument, in which
    order" can be stated.  Constants of [tuningConstants.hpp] are the fields
    of [Tuning]; methods of other classes whose bodies are not in
    [World.cpp] are the fields of [Collaborators]. *)

From Stdlib Require Import ZArith Ascii String Lia.
From stdpp Require Import base list gmap strings.

Local Open Scope Z_scope.

(* ===================================================================== *)
(** ** Machine integers *)
(* ===================================================================== *)

(** Conversion of a mathematical integer to a two's-complement integer of
    [bits] bits: the value is kept modulo [2^bits]. *)
Definition wrap_signed (bits v : Z) : Z :=
  (v + 2 ^ (bits - 1)) mod 2 ^ bits - 2 ^ (bits - 1).

(** [static_cast<int>(v)] *)
Definition to_int (v : Z) : Z := wrap_signed 32 v.

(** A value stored in a [Coordinate] ([int16_t], as [initRespawns] reads
    [spp_x], [spp_y] and [spp_z]). *)
Definition to_Coordinate (v : Z) : Z := wrap_signed 16 v.

Definition in_int (v : Z) : Prop := - 2 ^ 31 <= v < 2 ^ 31.
Definition in_Coordinate (v : Z) : Prop := - 2 ^ 15 <= v < 2 ^ 15.

(* ===================================================================== *)
(** ** Regular expressions: the fragment used by [executeUserCommand] *)
(* ===================================================================== *)

Module Regex.

(** Character classes of the ECMAScript grammar that the pattern uses. *)
Inductive cclass : Type :=
| CChar (c : ascii)       (* a literal character *)
| CNotChar (c : ascii)    (* [^c] *)
| CDot.                   (* .  : anything but a line terminator *)

Definition is_line_terminator (c : ascii) : bool :=
  Ascii.eqb c "010" || Ascii.eqb c "013".

Definition cmatch (cl : cclass) (c : ascii) : bool :=
  match cl with
  | CChar d => Ascii.eqb c d
  | CNotChar d => negb (Ascii.eqb c d)
  | CDot => negb (is_line_terminator c)
  end.

Inductive regex : Type :=
| RBol                              (* ^ *)
| REol                              (* $ *)
| RClass (cl : cclass)              (* one character of a class *)
| RStar (cl : cclass)               (* cl*  greedy *)
| RPlus (cl : cclass)               (* cl+  greedy *)
| ROpt (r : regex)                  (* r?   greedy *)
| RGroup (n : nat) (r : regex)      (* capture group number n *)
| RSeq (r1 r2 : regex).

(** Capture groups: number and captured text, latest first. *)
Definition captures : Type := list (nat * string).

Fixpoint capture (n : nat) (caps : captures) : option string :=
  match caps with
  | [] => None
  | (m, s) :: rest => if Nat.eqb n m then Some s else capture n rest
  end.

(** [match[n].str()]: the captured text, empty for a group that did not
    take part in the match. *)
Definition capture_str (n : nat) (caps : captures) : string :=
  match capture n caps with Some s => s | None => EmptyString end.

(** The text consumed between the remaining input [s] and the later
    remaining input [s']. *)
Definition consumed (s s' : string) : string :=
  String.substring 0 (String.length s - String.length s') s.

(** Greedy repetition of a character class, backtracking: the longest run
    is tried first, then shorter ones, each followed by the continuation. *)
Fixpoint star_bt {A : Type} (cl : cclass) (s : string)
    (k : string -> option A) : option A :=
  match s with
  | String c s' =>
      if cmatch cl c then
        match star_bt cl s' k with
        | Some r => Some r
        | None => k s
        end
      else k s
  | EmptyString => k s
  end.

(** Backtracking matcher in continuation-passing style.  [whole] is the
    complete input (for [^]), [s] the input still to be read. *)
Fixpoint bt (whole : string) (r : regex) (s : string) (caps : captures)
    (k : string -> captures -> option captures) : option captures :=
  match r with
  | RBol =>
      if Nat.eqb (String.length s) (String.length whole) then k s caps else None
  | REol =>
      match s with EmptyString => k s caps | _ => None end
  | RClass cl =>
      match s with
      | String c s' => if cmatch cl c then k s' caps else None
      | EmptyString => None
      end
  | RStar cl => star_bt cl s (fun s' => k s' caps)
  | RPlus cl =>
      match s with
      | String c s' =>
          if cmatch cl c then star_bt cl s' (fun s'' => k s'' caps) else None
      | EmptyString => None
      end
  | ROpt r1 =>
      match bt whole r1 s caps k with
      | Some res => Some res
      | None => k s caps
      end
  | RGroup n r1 =>
      bt whole r1 s caps (fun s' caps' => k s' ((n, consumed s s') :: caps'))
  | RSeq r1 r2 =>
      bt whole r1 s caps (fun s' caps' => bt whole r2 s' caps' k)
  end.

(** The last continuation: the match stands only at the end of the input. *)
Definition atEnd (s : string) (caps : captures) : option captures :=
  match s with EmptyString => Some caps | _ => None end.

(** [std::regex_match]: the pattern has to match the entire input. *)
Definition regex_match (r : regex) (input : string) : option captures :=
  bt input r input [] atEnd.

End Regex.

Import Regex.

(** The end of the pattern of [executeUserCommand], from the optional space
    on. *)
Definition patternTail : regex :=
  RSeq (ROpt (RClass (CChar " "))) (RSeq (ROpt (RGroup 2 (RStar CDot))) REol).

(** The [static const std::regex pattern] of [executeUserCommand]: start of
    input, an exclamation mark, group 1 of one or more characters other than
    a space, an optional space, an optional group 2 of any number of
    characters matched by the dot, end of input. *)
Definition pattern : regex :=
  RSeq RBol
    (RSeq (RClass (CChar "!"))
      (RSeq (RGroup 1 (RPlus (CNotChar " "))) patternTail)).

(** [World::executeUserCommand].  [CommandMap] is a [std::map] from command
    names to handlers; a handler of type [H] is called with [this], the
    [user] and the argument text.  The result is the returned [found]
    together with the handler call that was made, if any. *)
Definition executeUserCommand {U H : Type} (user : U) (input : string)
    (commands : gmap string H) : bool * option (H * U * string) :=
  match regex_match pattern input with
  | Some match_ =>
      match commands !! capture_str 1 match_ with
      | Some handler => (true, Some (handler, user, capture_str 2 match_))
      | None => (false, None)
      end
  | None => (false, None)
  end.

(* ===================================================================== *)
(** ** Positions, directions, characters *)
(* ===================================================================== *)

Record position : Type := { px : Z; py : Z; pz : Z }.

Definition position_eqb (p q : position) : bool :=
  (px p =? px q) && (py p =? py q) && (pz p =? pz q).

(** The compass values of [enum direction] that [World.cpp] names. *)
Inductive direction : Type :=
| dir_north | dir_northeast | dir_east | dir_southeast
| dir_south | dir_southwest | dir_west | dir_northwest.

(** Modelled from the spec: [position::move] is declared outside
    [World.cpp].  The spec's wander scenario has a step east add one to [x]
    and a step west subtract one; north is taken to subtract one from [y]
    and south to add one.  Coordinates are [int16_t]. *)
Definition step_x (d : direction) : Z :=
  match d with
  | dir_northeast | dir_east | dir_southeast => 1
  | dir_northwest | dir_west | dir_southwest => -1
  | _ => 0
  end.

Definition step_y (d : direction) : Z :=
  match d with
  | dir_northwest | dir_north | dir_northeast => -1
  | dir_southwest | dir_south | dir_southeast => 1
  | _ => 0
  end.

Definition move (p : position) (d : direction) : position :=
  {| px := to_Coordinate (px p + step_x d);
     py := to_Coordinate (py p + step_y d);
     pz := pz p |}.

(** The part of [Character] that the passes of [World.cpp] read and write.
    [alive] is [isAlive()], [effects] counts the cycles the effect bag has
    been run for, [onRoute] is [getOnRoute()]. *)
Record Character : Type := {
  id : Z;
  pos : position;
  alive : bool;
  actionPoints : Z;
  fightPoints : Z;
  effects : nat;
  onRoute : bool
}.

(** [SpawnPoint], with the constructor arguments of [initRespawns] and the
    identifier it was loaded for. *)
Record SpawnPoint : Type := {
  sp_pos : position;
  sp_range : Z;
  sp_spawnrange : Z;
  sp_min_spawntime : Z;
  sp_max_spawntime : Z;
  sp_spawnall : bool;
  sp_loaded : option Z
}.

Definition get_x (s : SpawnPoint) : Z := px (sp_pos s).
Definition get_y (s : SpawnPoint) : Z := py (sp_pos s).
Definition getRange (s : SpawnPoint) : Z := sp_range s.

Record Player : Type := {
  pchar : Character;
  online : bool;
  lastkeepalive : Z;
  lastsavetime : Z
}.

Record Monster : Type := {
  mchar : Character;
  monsterType : Z;
  getSpawn : option SpawnPoint
}.

Record NPC : Type := {
  nchar : Character;
  hasScript : bool
}.

(** The constants of [tuningConstants.hpp] and of the headers next to it
    that [World.cpp] uses; their values are not fixed in [World.cpp], so
    they are parameters.  [MAX_AP] and [MAX_FP] are the caps of the two
    reservoirs. *)
Record Tuning : Type := {
  MIN_AP_UPDATE : Z;
  CLIENT_TIMEOUT : Z;
  PLAYER_SAVE_INTERVAL : Z;
  MAX_ACT_RANGE : Z;
  NP_WALK_COST : Z;
  MAX_AP : Z;
  MAX_FP : Z;
  illarionTimeFactor : Z;
  illarionBirthTime : Z
}.

(** Modelled from the spec: [Character::increaseActionPoints] is defined
    outside [World.cpp]; the spec has the reservoir an integer that is
    capped. *)
Definition increaseActionPoints (K : Tuning) (n : Z) (c : Character) : Character :=
  {| id := id c; pos := pos c; alive := alive c;
     actionPoints := Z.min (MAX_AP K) (actionPoints c + n);
     fightPoints := fightPoints c; effects := effects c; onRoute := onRoute c |}.

(** Modelled from the spec: [Character::increaseFightPoints], the fight-point
    reservoir being advanced like the action points. *)
Definition increaseFightPoints (K : Tuning) (n : Z) (c : Character) : Character :=
  {| id := id c; pos := pos c; alive := alive c;
     actionPoints := actionPoints c;
     fightPoints := Z.min (MAX_FP K) (fightPoints c + n);
     effects := effects c; onRoute := onRoute c |}.

(** Modelled from the spec: [effects.checkEffects()] runs the effect bag for
    one cycle. *)
Definition checkEffects (c : Character) : Character :=
  {| id := id c; pos := pos c; alive := alive c;
     actionPoints := actionPoints c; fightPoints := fightPoints c;
     effects := S (effects c); onRoute := onRoute c |}.

Definition setOnRoute (b : bool) (c : Character) : Character :=
  {| id := id c; pos := pos c; alive := alive c;
     actionPoints := actionPoints c; fightPoints := fightPoints c;
     effects := effects c; onRoute := b |}.

(** Modelled from the spec: [increaseAttrib("hitpoints", MAXHPS)] on a dead
    NPC resets its hitpoints to the maximum, which makes it alive again. *)
Definition restoreHitpoints (c : Character) : Character :=
  {| id := id c; pos := pos c; alive := true;
     actionPoints := actionPoints c; fightPoints := fightPoints c;
     effects := effects c; onRoute := onRoute c |}.

Definition with_pchar (c : Character) (p : Player) : Player :=
  {| pchar := c; online := online p; lastkeepalive := lastkeepalive p;
     lastsavetime := lastsavetime p |}.

Definition with_mchar (c : Character) (m : Monster) : Monster :=
  {| mchar := c; monsterType := monsterType m; getSpawn := getSpawn m |}.

Definition with_nchar (c : Character) (n : NPC) : NPC :=
  {| nchar := c; hasScript := hasScript n |}.

Definition setSpawn (s : option SpawnPoint) (m : Monster) : Monster :=
  {| mchar := mchar m; monsterType := monsterType m; getSpawn := s |}.

(** Modelled from the spec: [Player::save] persists the player; it is what
    moves [lastsavetime] to the current time. *)
Definition save (now : Z) (p : Player) : Player :=
  {| pchar := pchar p; online := online p; lastkeepalive := lastkeepalive p;
     lastsavetime := now |}.

(** Methods of other classes that the passes call and whose bodies are not
    in [World.cpp].  Each is taken as acting on the character it is called
    on; what it does to other characters or to the rest of the world is
    outside this model. *)
Record Collaborators : Type := {
  (* Player::workoutCommands, Player::checkFightMode, ltAction->checkAction *)
  workoutCommands : Player -> Player;
  checkFightMode : Player -> Player;
  checkAction : Player -> Player;
  (* Character::canAct *)
  canAct : Character -> bool;
  (* World::getPlayersInRangeOf *)
  getPlayersInRangeOf : list Player -> position -> Z -> list Player;
  (* SpawnPoint::spawn: the spawn point afterwards and the monsters it made *)
  spawn : SpawnPoint -> SpawnPoint * list Monster;
  (* the turn of a monster that acts: lines 277 to 522 of checkMonsters *)
  monsterAct : list Player -> Monster -> Monster;
  (* World::deleteAllLostNPC *)
  deleteAllLostNPC : list NPC -> list NPC;
  (* LuaNPCScript::nextCycle, WaypointList::makeMove, LuaNPCScript::abortRoute *)
  nextCycle : NPC -> NPC;
  makeMove : NPC -> NPC * bool;
  abortRoute : NPC -> NPC;
  (* Monster::remove *)
  remove : Monster -> Monster;
  (* SpawnPoint::load: None when it throws *)
  load : Z -> SpawnPoint -> option SpawnPoint
}.

(* ===================================================================== *)
(** ** The world and its trace *)
(* ===================================================================== *)

Record World : Type := {
  usedAP : Z;
  ap : Z;
  Players : list Player;
  Monsters : list Monster;
  Npc : list NPC;
  SpawnList : list SpawnPoint;
  newMonsters : list Monster
}.

Definition set_ap (a : Z) (w : World) : World :=
  {| usedAP := usedAP w; ap := a; Players := Players w; Monsters := Monsters w;
     Npc := Npc w; SpawnList := SpawnList w; newMonsters := newMonsters w |}.

Definition set_usedAP (u : Z) (w : World) : World :=
  {| usedAP := u; ap := ap w; Players := Players w; Monsters := Monsters w;
     Npc := Npc w; SpawnList := SpawnList w; newMonsters := newMonsters w |}.

Definition set_Players (ps : list Player) (w : World) : World :=
  {| usedAP := usedAP w; ap := ap w; Players := ps; Monsters := Monsters w;
     Npc := Npc w; SpawnList := SpawnList w; newMonsters := newMonsters w |}.

Definition set_Monsters (ms : list Monster) (w : World) : World :=
  {| usedAP := usedAP w; ap := ap w; Players := Players w; Monsters := ms;
     Npc := Npc w; SpawnList := SpawnList w; newMonsters := newMonsters w |}.

Definition set_Npc (ns : list NPC) (w : World) : World :=
  {| usedAP := usedAP w; ap := ap w; Players := Players w; Monsters := Monsters w;
     Npc := ns; SpawnList := SpawnList w; newMonsters := newMonsters w |}.

Definition set_SpawnList (ss : list SpawnPoint) (w : World) : World :=
  {| usedAP := usedAP w; ap := ap w; Players := Players w; Monsters := Monsters w;
     Npc := Npc w; SpawnList := ss; newMonsters := newMonsters w |}.

Definition set_newMonsters (ms : list Monster) (w : World) : World :=
  {| usedAP := usedAP w; ap := ap w; Players := Players w; Monsters := Monsters w;
     Npc := Npc w; SpawnList := SpawnList w; newMonsters := ms |}.

(** What a pass does to a character through a class outside [World.cpp];
    [who] is the character's id. *)
Inductive Action : Type :=
| Enter                          (* the pass is entered *)
| CreditAP (who n : Z)           (* increaseActionPoints(n) *)
| CreditFP (who n : Z)           (* increaseFightPoints(n) *)
| CheckEffects (who : Z)         (* effects.checkEffects() *)
| Save (who : Z)                 (* player.save() *)
| ShutdownSend (who : Z)         (* Connection->shutdownSend(LogOutTC) *)
| Logout (who : Z)               (* the offline branch of checkPlayers *)
| UpdatePlayerList               (* updatePlayerList() *)
| Act (who : Z)                  (* a monster or NPC takes its turn *)
| Kill (who : Z)                 (* killMonster(id) *)
| Appear (who : Z)               (* a new monster is inserted and announced *)
| Spin (who : Z).                (* sendSpinToAllVisiblePlayers(npc) *)

Inductive Pass : Type := PassPlayers | PassMonsters | PassNPC.

Record Event : Type := { ev_pass : Pass; ev_action : Action }.

Definition tag (p : Pass) (acts : list Action) : list Event :=
  map (fun a => {| ev_pass := p; ev_action := a |}) acts.

(* ===================================================================== *)
(** ** The player pass *)
(* ===================================================================== *)

(** What the lambda of [checkPlayers] does to a player inside the keepalive
    window before it looks at the save time: the credit of [a] to both
    reservoirs, [workoutCommands], [checkFightMode], [checkAction] and
    [checkEffects]. *)
Definition servePlayer (K : Tuning) (C : Collaborators) (a : Z) (player : Player)
    : Player :=
  let p1 := with_pchar
              (increaseFightPoints K a (increaseActionPoints K a (pchar player)))
              player in
  let p2 := checkAction C (checkFightMode C (workoutCommands C p1)) in
  with_pchar (checkEffects (pchar p2)) p2.

(** The lambda of [checkPlayers] for one player.  [a] is the member [ap],
    [savedOnePlayer] the captured flag.  Result: the player afterwards, the
    flag afterwards, the ids pushed on [lostPlayers], the calls made. *)
Definition visitPlayer (K : Tuning) (C : Collaborators) (now a : Z)
    (savedOnePlayer : bool) (player : Player)
    : Player * bool * list Z * list Action :=
  let i := id (pchar player) in
  if online player then
    let temptime := now - lastkeepalive player in
    if (0 <=? temptime) && (temptime <=? CLIENT_TIMEOUT K) then
      let p3 := servePlayer K C a player in
      let timeSinceSave := now - lastsavetime p3 in
      let acts := [CreditAP i a; CreditFP i a; CheckEffects i] in
      if negb savedOnePlayer && (PLAYER_SAVE_INTERVAL K <=? timeSinceSave) then
        (save now p3, true, [], acts ++ [Save i])
      else
        (p3, savedOnePlayer, [], acts)
    else
      (player, savedOnePlayer, [], [ShutdownSend i])
  else
    (player, savedOnePlayer, [i], [Logout i]).

(** [Players.for_each] with the lambda above. *)
Fixpoint forEachPlayer (K : Tuning) (C : Collaborators) (now a : Z)
    (savedOnePlayer : bool) (players : list Player)
    : list Player * bool * list Z * list Action :=
  match players with
  | [] => ([], savedOnePlayer, [], [])
  | player :: rest =>
      let '(player', saved1, lost1, acts1) :=
        visitPlayer K C now a savedOnePlayer player in
      let '(rest', saved2, lost2, acts2) :=
        forEachPlayer K C now a saved1 rest in
      (player' :: rest', saved2, lost1 ++ lost2, acts1 ++ acts2)
  end.

(** [Players.erase(id)] *)
Definition erase (i : Z) (players : list Player) : list Player :=
  List.filter (fun p => negb (id (pchar p) =? i)) players.

(** [World::checkPlayers]; [now] is what [time(&now)] reads. *)
Definition checkPlayers (K : Tuning) (C : Collaborators) (now : Z) (w : World)
    : World * list Action :=
  let '(visited, _, lostPlayers, acts) :=
    forEachPlayer K C now (ap w) false (Players w) in
  let remaining := fold_left (fun ps i => erase i ps) lostPlayers visited in
  (set_Players remaining w,
   Enter :: acts ++ match lostPlayers with [] => [] | _ => [UpdatePlayerList] end).

(* ===================================================================== *)
(** ** The monster pass and the NPC pass *)
(* ===================================================================== *)

(** [World::isPlayerNearby] *)
Definition isPlayerNearby (K : Tuning) (C : Collaborators)
    (players : list Player) (character : Character) : bool :=
  match getPlayersInRangeOf C players (pos character) (MAX_ACT_RANGE K) with
  | [] => false
  | _ => true
  end.

(** The lambda of [checkMonsters] for one monster.  Result: the monster
    afterwards, the ids pushed on [deadMonsters], the calls made. *)
Definition visitMonster (K : Tuning) (C : Collaborators) (players : list Player)
    (a : Z) (monster : Monster) : Monster * list Z * list Action :=
  let i := id (mchar monster) in
  if alive (mchar monster) then
    let c := checkEffects
               (increaseFightPoints K a (increaseActionPoints K a (mchar monster))) in
    let m1 := with_mchar c monster in
    let acts := [CreditAP i a; CreditFP i a; CheckEffects i] in
    if canAct C c then
      if negb (isPlayerNearby K C players c) && negb (onRoute c) then
        (m1, [], acts)
      else
        (monsterAct C players m1, [], acts ++ [Act i])
    else
      (m1, [], acts)
  else
    (monster, [i], []).

(** [Monsters.for_each] with the lambda above.  The visits are taken one by
    one on the monsters as the pass finds them: what the turn of one
    monster does to a monster visited later is outside this model. *)
Definition forEachMonster (K : Tuning) (C : Collaborators) (players : list Player)
    (a : Z) (monsters : list Monster) : list Monster * list Z * list Action :=
  let visits := map (visitMonster K C players a) monsters in
  (map (fun v => v.1.1) visits,
   List.concat (map (fun v => v.1.2) visits),
   List.concat (map (fun v => v.2) visits)).

(** [spawn.spawn()] for every entry of [SpawnList]. *)
Fixpoint spawnAll (C : Collaborators) (spawns : list SpawnPoint)
    : list SpawnPoint * list Monster :=
  match spawns with
  | [] => ([], [])
  | s :: rest =>
      let '(s', made) := spawn C s in
      let '(rest', made') := spawnAll C rest in
      (s' :: rest', made ++ made')
  end.

(** [killMonster(id)] as far as the population goes. *)
Definition killMonster (i : Z) (monsters : list Monster) : list Monster :=
  List.filter (fun m => negb (id (mchar m) =? i)) monsters.

(** The head of [checkMonsters]: the spawn check.  [intervalExceeded] is
    what [monstertimer.intervalExceeded()] answers, [spawnEnabled] what
    [isSpawnEnabled()] answers. *)
Definition spawnCheck (C : Collaborators) (intervalExceeded spawnEnabled : bool)
    (w : World) : World :=
  if intervalExceeded && spawnEnabled then
    let '(spawns, made) := spawnAll C (SpawnList w) in
    set_newMonsters (newMonsters w ++ made) (set_SpawnList spawns w)
  else w.

(** [if (ap > 1) { --ap; }] *)
Definition throttle (w : World) : World :=
  if 1 <? ap w then set_ap (ap w - 1) w else w.

(** The rest of [checkMonsters]: the loop over the monsters, the dead ones
    killed, the new ones inserted and announced. *)
Definition monsterLoop (K : Tuning) (C : Collaborators) (w : World)
    : World * list Action :=
  let '(visited, deadMonsters, acts) :=
    forEachMonster K C (Players w) (ap w) (Monsters w) in
  let survivors := fold_left (fun ms i => killMonster i ms) deadMonsters visited in
  (set_newMonsters [] (set_Monsters (survivors ++ newMonsters w) w),
   Enter :: acts ++ map Kill deadMonsters
         ++ map (fun m => Appear (id (mchar m))) (newMonsters w)).

(** [World::checkMonsters] *)
Definition checkMonsters (K : Tuning) (C : Collaborators)
    (intervalExceeded spawnEnabled : bool) (w : World) : World * list Action :=
  monsterLoop K C (throttle (spawnCheck C intervalExceeded spawnEnabled w)).

(** The lambda of [checkNPC] for one NPC. *)
Definition visitNPC (K : Tuning) (C : Collaborators) (players : list Player)
    (a : Z) (npc : NPC) : NPC * list Action :=
  let i := id (nchar npc) in
  if alive (nchar npc) then
    let c := checkEffects (increaseActionPoints K a (nchar npc)) in
    let n1 := with_nchar c npc in
    let acts := [CreditAP i a; CheckEffects i] in
    if negb (isPlayerNearby K C players c) && negb (onRoute c) then
      (n1, acts)
    else if canAct C c && hasScript n1 then
      let n2 := nextCycle C n1 in
      if onRoute (nchar n2) then
        let '(n3, moved) := makeMove C n2 in
        if moved then (n3, acts ++ [Act i])
        else (abortRoute C (with_nchar (setOnRoute false (nchar n3)) n3),
              acts ++ [Act i])
      else (n2, acts ++ [Act i])
    else
      (n1, acts)
  else
    (with_nchar (restoreHitpoints (nchar npc)) npc, [Spin i]).

(** [World::checkNPC] *)
Definition checkNPC (K : Tuning) (C : Collaborators) (w : World)
    : World * list Action :=
  let npcs := deleteAllLostNPC C (Npc w) in
  let visits := map (visitNPC K C (Players w) (ap w)) npcs in
  (set_Npc (map fst visits) w, Enter :: List.concat (map snd visits)).

(* ===================================================================== *)
(** ** The tick driver *)
(* ===================================================================== *)

(** What one invocation of [turntheworld] reads from outside the world:
    [elapsed] is [duration_cast<milliseconds>(now - startTime).count()]. *)
Record TickInput : Type := {
  elapsed : Z;
  unixtime : Z;
  intervalExceeded : bool;
  spawnEnabled : bool
}.

(** [World::turntheworld].  The quotient is the truncating division of C++;
    [usedAP] is declared in [World.hpp] and kept as an unbounded integer. *)
Definition turntheworld (K : Tuning) (C : Collaborators) (i : TickInput)
    (w : World) : World * list Event :=
  let a := to_int (Z.quot (elapsed i) (MIN_AP_UPDATE K) - usedAP w) in
  let w0 := set_ap a w in
  if 0 <? ap w0 then
    let w1 := set_usedAP (usedAP w0 + ap w0) w0 in
    let '(w2, acts2) := checkPlayers K C (unixtime i) w1 in
    let '(w3, acts3) := checkMonsters K C (intervalExceeded i) (spawnEnabled i) w2 in
    let '(w4, acts4) := checkNPC K C w3 in
    (w4, tag PassPlayers acts2 ++ tag PassMonsters acts3 ++ tag PassNPC acts4)
  else
    (w0, []).

(** A sequence of invocations. *)
Fixpoint run (K : Tuning) (C : Collaborators) (inputs : list TickInput)
    (w : World) : World * list Event :=
  match inputs with
  | [] => (w, [])
  | i :: rest =>
      let '(w1, evs1) := turntheworld K C i w in
      let '(w2, evs2) := run K C rest w1 in
      (w2, evs1 ++ evs2)
  end.

(* ===================================================================== *)
(** ** The bounded random wander of a monster *)
(* ===================================================================== *)

(** The first [switch] on [dir]: east and west change places. *)
Definition mirror_east_west (dir : direction) : direction :=
  match dir with
  | dir_northeast => dir_northwest
  | dir_east => dir_west
  | dir_southeast => dir_southwest
  | dir_southwest => dir_southeast
  | dir_west => dir_east
  | dir_northwest => dir_northeast
  | _ => dir
  end.

(** The second [switch] on [dir]: north and south change places. *)
Definition mirror_north_south (dir : direction) : direction :=
  match dir with
  | dir_north => dir_south
  | dir_northeast => dir_southeast
  | dir_southeast => dir_northeast
  | dir_south => dir_north
  | dir_southwest => dir_northwest
  | dir_northwest => dir_southwest
  | _ => dir
  end.

(** [xoffs] and [yoffs] for the candidate position [newpos]. *)
Definition xoffs (s : SpawnPoint) (newpos : position) : Z :=
  to_Coordinate (get_x s - px newpos).
Definition yoffs (s : SpawnPoint) (newpos : position) : Z :=
  to_Coordinate (get_y s - py newpos).

(** The direction a monster at [p] walks in after [dir] was drawn: the
    block under [if (spawn != nullptr)]. *)
Definition wanderDirection (spawn_ : option SpawnPoint) (p : position)
    (dir : direction) : direction :=
  match spawn_ with
  | Some s =>
      let newpos := move p dir in
      let dir1 :=
        if getRange s <? Z.abs (xoffs s newpos) then mirror_east_west dir else dir in
      if getRange s <? Z.abs (yoffs s newpos) then mirror_north_south dir1 else dir1
  | None => dir
  end.

(** The else branch of the random step: [monster.move(dir)] followed by
    [monster.increaseActionPoints(-NP_WALK_COST)].
    Modelled from the spec: [Character::move] is defined outside
    [World.cpp]; the monster moves one field in the direction given, and
    [stepped] tells whether the field could be entered (the monster stays
    where it is otherwise). *)
Definition randomStep (K : Tuning) (dir : direction) (stepped : bool)
    (monster : Monster) : Monster :=
  let c := mchar monster in
  let d := wanderDirection (getSpawn monster) (pos c) dir in
  let c1 := {| id := id c; pos := if stepped then move (pos c) d else pos c;
               alive := alive c; actionPoints := actionPoints c;
               fightPoints := fightPoints c; effects := effects c;
               onRoute := onRoute c |} in
  with_mchar (increaseActionPoints K (- NP_WALK_COST K) c1) monster.

(** Distance of a position from a spawn point in the maximum metric. *)
Definition spawnDistance (s : SpawnPoint) (p : position) : Z :=
  Z.max (Z.abs (px p - get_x s)) (Z.abs (py p - get_y s)).

(* ===================================================================== *)
(** ** Targets in range *)
(* ===================================================================== *)

Record Range : Type := { radius : Z; zRadius : Z }.

(** Modelled from the spec: the range test of the population index is
    defined outside [World.cpp].  The spec measures every proximity check
    by the maximum of the distances in [x] and in [y], and says nothing of
    levels: what the index makes of [zRadius] is stated neither there nor
    in [World.cpp], and this test does not read it. *)
Definition isInRange (p : position) (range : Range) (q : position) : bool :=
  Z.max (Z.abs (px q - px p)) (Z.abs (py q - py p)) <=? radius range.

(** Modelled from the spec: [findAllAliveCharactersInRangeOf] of the
    population index, "all live characters within a position+radius". *)
Definition findAllAliveCharactersInRangeOf (population : list Character)
    (p : position) (range : Range) : list Character :=
  List.filter (fun c => alive c && isInRange p range (pos c)) population.

(** [World::getTargetsInRange] *)
Definition getTargetsInRange (w : World) (p : position) (radius_ : Z)
    : list Character :=
  let range := {| radius := radius_; zRadius := 0 |} in
  let players := findAllAliveCharactersInRangeOf (map pchar (Players w)) p range in
  let monsters := findAllAliveCharactersInRangeOf (map mchar (Monsters w)) p range in
  players ++ List.filter (fun monster => negb (position_eqb p (pos monster))) monsters.

(* ===================================================================== *)
(** ** Loading the spawn points *)
(* ===================================================================== *)

(** A row of the [spawnpoint] table; [None] is SQL NULL. *)
Record Row : Type := {
  spp_id : option Z;
  spp_x : option Z;
  spp_y : option Z;
  spp_z : option Z;
  spp_range : option Z;
  spp_spawnrange : option Z;
  spp_minspawntime : option Z;
  spp_maxspawntime : option Z;
  spp_spawnall : option bool
}.

(** [row[..].as<T>()] for an integer type with the bounds given: the
    database library throws on NULL and on a value that [T] cannot hold.
    [None] stands for a thrown [std::exception]. *)
Definition field_as (lo hi : Z) (field : option Z) : option Z :=
  match field with
  | Some v => if (lo <=? v) && (v <=? hi) then Some v else None
  | None => None
  end.

Definition as_uint32 := field_as 0 (2 ^ 32 - 1).
Definition as_int16 := field_as (- 2 ^ 15) (2 ^ 15 - 1).
Definition as_int := field_as (- 2 ^ 31) (2 ^ 31 - 1).
Definition as_uint16 := field_as 0 (2 ^ 16 - 1).

(** The body of the loop over the rows. *)
Definition readRow (C : Collaborators) (row : Row) : option SpawnPoint :=
  spawnId ← as_uint32 (spp_id row);
  x ← as_int16 (spp_x row);
  y ← as_int16 (spp_y row);
  z ← as_int16 (spp_z row);
  range ← as_int (spp_range row);
  spawnrange ← as_uint16 (spp_spawnrange row);
  minspawntime ← as_uint16 (spp_minspawntime row);
  maxspawntime ← as_uint16 (spp_maxspawntime row);
  spawnall ← spp_spawnall row;
  load C spawnId
    {| sp_pos := {| px := x; py := y; pz := z |}; sp_range := range;
       sp_spawnrange := spawnrange; sp_min_spawntime := minspawntime;
       sp_max_spawntime := maxspawntime; sp_spawnall := spawnall;
       sp_loaded := None |}.

(** The loop: the spawn list so far, and whether the loop ran to its end
    without an exception. *)
Fixpoint readRows (C : Collaborators) (rows : list Row) (spawns : list SpawnPoint)
    : list SpawnPoint * bool :=
  match rows with
  | [] => (spawns, true)
  | row :: rest =>
      match readRow C row with
      | Some newSpawn => readRows C rest (spawns ++ [newSpawn])
      | None => (spawns, false)
      end
  end.

(** [World::initRespawns].  [results] is what [query.execute()] produces:
    [None] when it throws, the rows otherwise. *)
Definition initRespawns (C : Collaborators) (results : option (list Row))
    (w : World) : World * bool :=
  let w1 := set_SpawnList []
              (set_Monsters (map (fun m => setSpawn None (remove C m)) (Monsters w)) w) in
  match results with
  | Some rows =>
      match rows with
      | _ :: _ =>
          let '(spawns, finished) := readRows C rows [] in
          (set_SpawnList spawns w1, finished)
      | [] => (w1, false)
      end
  | None => (w1, false)
  end.

(* ===================================================================== *)
(** ** The anchor of the in-game day task *)
(* ===================================================================== *)

Definition secondsInHour : Z := 60 * 60.

Definition realSecondsInIllarionDay (K : Tuning) : Z :=
  Z.quot (secondsInHour * 24) (illarionTimeFactor K).

(** The value of [curr_unixtime] that [getNextIGDayTime] hands to
    [system_clock::from_time_t].  [t] is [time(nullptr)], [tm_isdst] the
    field of [localtime]; [%] is the truncating remainder of C++. *)
Definition nextIGDay_unixtime (K : Tuning) (t tm_isdst : Z) : Z :=
  let curr0 := if tm_isdst =? 0 then t else t + secondsInHour in
  let curr1 := curr0 - illarionBirthTime K in
  let curr2 := curr1 - Z.rem curr1 (realSecondsInIllarionDay K) in
  curr2 + realSecondsInIllarionDay K.

(** A count of nanoseconds as [system_clock] and [steady_clock] keep it: a
    signed 64-bit integer; a value outside its range is kept modulo
    [2^64]. *)
Definition to_nanoseconds (v : Z) : Z := wrap_signed 64 v.

(** [getNextIGDayTime]: clocks in nanoseconds; [steady_now] and
    [system_now] are the two readings of [now()].  [from_time_t] turns the
    seconds into nanoseconds; the difference and the sum are taken on the
    64-bit counts. *)
Definition getNextIGDayTime (K : Tuning) (t tm_isdst steady_now system_now : Z) : Z :=
  let target := to_nanoseconds (nextIGDay_unixtime K t tm_isdst * 1000000000) in
  let diff := to_nanoseconds (target - system_now) in
  to_nanoseconds (steady_now + diff).

(* ===================================================================== *)
(** ** Vocabulary of the statements *)
(* ===================================================================== *)

(** The three passes in the order players, monsters, NPCs, on a world whose
    [ap] and [usedAP] are already set. *)
Definition threePasses (K : Tuning) (C : Collaborators) (i : TickInput)
    (w1 : World) : World * list Event :=
  let '(w2, acts2) := checkPlayers K C (unixtime i) w1 in
  let '(w3, acts3) := checkMonsters K C (intervalExceeded i) (spawnEnabled i) w2 in
  let '(w4, acts4) := checkNPC K C w3 in
  (w4, tag PassPlayers acts2 ++ tag PassMonsters acts3 ++ tag PassNPC acts4).

Definition isEnter (a : Action) : bool :=
  match a with Enter => true | _ => false end.

(** The passes entered, in the order of the trace. *)
Definition entered (evs : list Event) : list Pass :=
  map ev_pass (List.filter (fun e => isEnter (ev_action e)) evs).

(** What the monster pass leaves in [ap]. *)
Definition throttled (a : Z) : Z := if 1 <? a then a - 1 else a.

Definition pass_eqb (p q : Pass) : bool :=
  match p, q with
  | PassPlayers, PassPlayers | PassMonsters, PassMonsters | PassNPC, PassNPC => true
  | _, _ => false
  end.

(** The calls of one pass within the trace of a tick. *)
Definition passActions (p : Pass) (evs : list Event) : list Action :=
  map ev_action (List.filter (fun e => pass_eqb p (ev_pass e)) evs).

(** The amounts credited to action points, and to fight points. *)
Definition apAmount (a : Action) : list Z :=
  match a with CreditAP _ n => [n] | _ => [] end.

Definition fpAmount (a : Action) : list Z :=
  match a with CreditFP _ n => [n] | _ => [] end.

Definition creditsAP (acts : list Action) : list Z := flat_map apAmount acts.
Definition creditsFP (acts : list Action) : list Z := flat_map fpAmount acts.

Definition savedId (a : Action) : list Z :=
  match a with Save who => [who] | _ => [] end.

(** The players saved, in the order of the calls. *)
Definition saves (acts : list Action) : list Z := flat_map savedId acts.

(** A player that [checkPlayers] would save if no one was saved before it:
    online, inside the keepalive window, last saved long enough ago. *)
Definition dueForSave (K : Tuning) (now : Z) (p : Player) : bool :=
  online p
  && (0 <=? now - lastkeepalive p) && (now - lastkeepalive p <=? CLIENT_TIMEOUT K)
  && (PLAYER_SAVE_INTERVAL K <=? now - lastsavetime p).

(** The same test as [checkPlayers] makes it: [online] and the keepalive are
    read first, [lastsavetime] only after the player has been credited and
    [workoutCommands], [checkFightMode] and [checkAction] have run. *)
Definition dueWhenChecked (K : Tuning) (C : Collaborators) (now a : Z) (p : Player)
    : bool :=
  online p
  && (0 <=? now - lastkeepalive p) && (now - lastkeepalive p <=? CLIENT_TIMEOUT K)
  && (PLAYER_SAVE_INTERVAL K <=? now - lastsavetime (servePlayer K C a p)).

(** The time of the last save that [checkPlayers] finds when it visits a
    player: the one those calls have left for a player that is served, the
    player's own otherwise. *)
Definition checkedSaveTime (K : Tuning) (C : Collaborators) (now a : Z) (p : Player)
    : Z :=
  if online p
     && (0 <=? now - lastkeepalive p) && (now - lastkeepalive p <=? CLIENT_TIMEOUT K)
  then lastsavetime (servePlayer K C a p)
  else lastsavetime p.

(** The collaborators of the player pass leave [lastsavetime] alone: it is
    [save] that moves it. *)
Definition keepsSaveTime (C : Collaborators) : Prop :=
  forall p,
    lastsavetime (checkAction C (checkFightMode C (workoutCommands C p)))
    = lastsavetime p.

(** A sequence of clock readings that never goes back, starting at [e]. *)
Fixpoint monotoneFrom (e : Z) (inputs : list TickInput) : Prop :=
  match inputs with
  | [] => True
  | i :: rest => e <= elapsed i /\ monotoneFrom (elapsed i) rest
  end.

(** The last clock reading of a sequence, [e] for the empty one. *)
Fixpoint lastElapsed (e : Z) (inputs : list TickInput) : Z :=
  match inputs with
  | [] => e
  | i :: rest => lastElapsed (elapsed i) rest
  end.

Definition noSpace (s : string) : Prop :=
  forallb (fun c => negb (Ascii.eqb c " ")) (list_ascii_of_string s) = true.

Definition noLineTerminator (s : string) : Prop :=
  forallb (fun c => negb (is_line_terminator c)) (list_ascii_of_string s) = true.

(** The longest prefix of [s] without a space, and what follows it. *)
Fixpoint splitAtSpace (s : string) : string * string :=
  match s with
  | String c s' =>
      if Ascii.eqb c " " then (EmptyString, s)
      else let '(name, tail) := splitAtSpace s' in (String c name, tail)
  | EmptyString => (EmptyString, EmptyString)
  end.

(** A command read without the pattern: after the exclamation mark the name
    runs up to the first space or the end, one space is dropped, and the
    rest is the argument, which may hold no line terminator. *)
Definition parseCommand (input : string) : option (string * string) :=
  match input with
  | String c rest =>
      if Ascii.eqb c "!" then
        match splitAtSpace rest with
        | (EmptyString, _) => None
        | (name, tail) =>
            let arg := match tail with
                       | String _ t => t
                       | EmptyString => EmptyString
                       end in
            if forallb (fun c => negb (is_line_terminator c)) (list_ascii_of_string arg)
            then Some (name, arg)
            else None
        end
      else None
  | EmptyString => None
  end.

Definition noLeadingSpace (s : string) : Prop :=
  match s with String c _ => Ascii.eqb c " " = false | EmptyString => True end.

(** The next day boundary as the specification writes it, with floor
    division. *)
Definition nextIGDay_spec (K : Tuning) (t : Z) (dst : bool) : Z :=
  let t' := if dst then t + 3600 else t in
  let day := 86400 / illarionTimeFactor K in
  ((t' - illarionBirthTime K) / day + 1) * day + illarionBirthTime K.

(* ===================================================================== *)
(** ** Sample constants, collaborators and worlds *)
(* ===================================================================== *)

(** A hundred milliseconds to the action point and three in-game days to a
    real day, as in the scenarios of the specification; the birth time is a
    day in February 2000. *)
Definition sampleTuning : Tuning :=
  {| MIN_AP_UPDATE := 100; CLIENT_TIMEOUT := 50; PLAYER_SAVE_INTERVAL := 600;
     MAX_ACT_RANGE := 60; NP_WALK_COST := 5; MAX_AP := 21; MAX_FP := 21;
     illarionTimeFactor := 3; illarionBirthTime := 950742000 |}.

Definition withLoaded (i : Z) (s : SpawnPoint) : SpawnPoint :=
  {| sp_pos := sp_pos s; sp_range := sp_range s; sp_spawnrange := sp_spawnrange s;
     sp_min_spawntime := sp_min_spawntime s; sp_max_spawntime := sp_max_spawntime s;
     sp_spawnall := sp_spawnall s; sp_loaded := Some i |}.

(** Collaborators that do as little as possible: scripts and commands change
    nothing, a character can act once it holds seven action points, players
    are near within [r] fields. *)
Definition plainCollaborators : Collaborators :=
  {| workoutCommands := fun p => p;
     checkFightMode := fun p => p;
     checkAction := fun p => p;
     canAct := fun c => 7 <=? actionPoints c;
     getPlayersInRangeOf := fun players p r =>
       List.filter (fun q => isInRange p {| radius := r; zRadius := 0 |} (pos (pchar q)))
                   players;
     spawn := fun s => (s, []);
     monsterAct := fun _ m => m;
     deleteAllLostNPC := fun npcs => npcs;
     nextCycle := fun n => n;
     makeMove := fun n => (n, true);
     abortRoute := fun n => n;
     remove := fun m => m;
     load := fun i s => Some (withLoaded i s) |}.

Definition sampleCharacter (i x y : Z) : Character :=
  {| id := i; pos := {| px := x; py := y; pz := 0 |}; alive := true;
     actionPoints := 0; fightPoints := 0; effects := 0%nat; onRoute := false |}.

Definition samplePlayer (i x y keepalive saved : Z) : Player :=
  {| pchar := sampleCharacter i x y; online := true;
     lastkeepalive := keepalive; lastsavetime := saved |}.

Definition sampleSpawn : SpawnPoint :=
  {| sp_pos := {| px := 100; py := 100; pz := 0 |}; sp_range := 5;
     sp_spawnrange := 3; sp_min_spawntime := 1; sp_max_spawntime := 2;
     sp_spawnall := false; sp_loaded := Some 1 |}.

Definition sampleMonster (i x y : Z) : Monster :=
  {| mchar := sampleCharacter i x y; monsterType := 1; getSpawn := Some sampleSpawn |}.

Definition sampleNPC (i x y : Z) : NPC :=
  {| nchar := sampleCharacter i x y; hasScript := true |}.

Definition emptyWorld : World :=
  {| usedAP := 0; ap := 0; Players := []; Monsters := []; Npc := [];
     SpawnList := []; newMonsters := [] |}.

(** One monster and one NPC far from any player. *)
Definition quietWorld : World :=
  {| usedAP := 0; ap := 0; Players := [];
     Monsters := [sampleMonster 11 104 100]; Npc := [sampleNPC 21 50 50];
     SpawnList := [sampleSpawn]; newMonsters := [] |}.

(** Three players, all online, heard of ten seconds before the sample time
    and last saved a thousand seconds before it. *)
Definition dueWorld : World :=
  {| usedAP := 0; ap := 1;
     Players := [samplePlayer 1 0 0 999999990 999999000;
                 samplePlayer 2 5 0 999999990 999999000;
                 samplePlayer 3 9 0 999999990 999999000];
     Monsters := []; Npc := []; SpawnList := []; newMonsters := [] |}.

Definition sampleInput (ms : Z) : TickInput :=
  {| elapsed := ms; unixtime := 1000000000; intervalExceeded := false;
     spawnEnabled := true |}.

Definition sampleCommands : gmap string nat :=
  <[ "gm"%string := 2%nat ]> {[ "say"%string := 1%nat ]}.

(** An argument of two lines: the letter a, a line feed, the letter b. *)
Definition twoLines : string := String "a" (String "010" (String "b" EmptyString)).

Definition sampleRow : Row :=
  {| spp_id := Some 1; spp_x := Some 100; spp_y := Some 100; spp_z := Some 0;
     spp_range := Some 5; spp_spawnrange := Some 3; spp_minspawntime := Some 1;
     spp_maxspawntime := Some 2; spp_spawnall := Some false |}.

(** A row whose [spp_spawnrange] is negative: [as<uint16_t>()] throws. *)
Definition badRow : Row :=
  {| spp_id := Some 2; spp_x := Some 100; spp_y := Some 100; spp_z := Some 0;
     spp_range := Some 5; spp_spawnrange := Some (-1); spp_minspawntime := Some 1;
     spp_maxspawntime := Some 2; spp_spawnall := Some false |}.

(* ===================================================================== *)
(** ** The claims of the specification, as it words them *)
(* ===================================================================== *)

(** Tick driver: [ap] is set to the floor quotient minus [usedAP]; a
    positive [ap] is added to [usedAP] and the passes run; otherwise nothing
    else changes and no pass runs. *)
Definition tickDriver_as_specified (K : Tuning) (C : Collaborators)
    (i : TickInput) (w : World) : Prop :=
  let a := elapsed i / MIN_AP_UPDATE K - usedAP w in
  (0 < a ->
     turntheworld K C i w
     = threePasses K C i (set_usedAP (usedAP w + a) (set_ap a w)))
  /\ (a <= 0 -> turntheworld K C i w = (set_ap a w, [])).

(** Monster throttling: monsters are credited the decremented [ap], the NPC
    pass of the same tick the undecremented one. *)
Definition throttling_as_specified (K : Tuning) (C : Collaborators)
    (i : TickInput) (w : World) : Prop :=
  let a := to_int (Z.quot (elapsed i) (MIN_AP_UPDATE K) - usedAP w) in
  let evs := (turntheworld K C i w).2 in
  (forall n, In n (creditsAP (passActions PassMonsters evs)) -> n = throttled a)
  /\ (forall n, In n (creditsFP (passActions PassMonsters evs)) -> n = throttled a)
  /\ (forall n, In n (creditsAP (passActions PassNPC evs)) -> n = a).

(** Early out: a live monster and a live NPC with no player near and not on
    a route are skipped before anything is credited. *)
Definition earlyOut_as_specified (K : Tuning) (C : Collaborators)
    (players : list Player) (a : Z) (monster : Monster) (npc : NPC) : Prop :=
  (alive (mchar monster) = true ->
   isPlayerNearby K C players (mchar monster) = false ->
   onRoute (mchar monster) = false ->
   let c' := mchar (visitMonster K C players a monster).1.1 in
   actionPoints c' = actionPoints (mchar monster)
   /\ fightPoints c' = fightPoints (mchar monster)
   /\ effects c' = effects (mchar monster))
  /\ (alive (nchar npc) = true ->
      isPlayerNearby K C players (nchar npc) = false ->
      onRoute (nchar npc) = false ->
      let c' := nchar (visitNPC K C players a npc).1 in
      actionPoints c' = actionPoints (nchar npc)
      /\ fightPoints c' = fightPoints (nchar npc)
      /\ effects c' = effects (nchar npc)).

(** Wander: the direction is mirrored on an axis exactly when the candidate
    field overshoots the range on that axis, and after the step the monster
    is within [range + 1] of its spawn point. *)
Definition wander_as_specified (K : Tuning) (s : SpawnPoint) (dir : direction)
    (monster : Monster) : Prop :=
  getSpawn monster = Some s ->
  let p := pos (mchar monster) in
  let candidate := move p dir in
  let dir1 := if getRange s <? Z.abs (get_x s - px candidate)
              then mirror_east_west dir else dir in
  let dir2 := if getRange s <? Z.abs (get_y s - py candidate)
              then mirror_north_south dir1 else dir1 in
  wanderDirection (getSpawn monster) p dir = dir2
  /\ spawnDistance s (pos (mchar (randomStep K dir true monster))) <= getRange s + 1.

(** Command round trip: a name of the map, a space and an argument without
    leading space call the handler with that argument. *)
Definition commandRoundTrip_as_specified {U H : Type} (user : U)
    (commands : gmap string H) (n a : string) (handler : H) : Prop :=
  commands !! n = Some handler ->
  noLeadingSpace a ->
  executeUserCommand user ("!" +:+ n +:+ " " +:+ a) commands
  = (true, Some (handler, user, a)).

(** Spawn loading: true exactly when the query does not throw and has a
    row. *)
Definition initRespawns_as_specified (C : Collaborators)
    (results : option (list Row)) (w : World) : Prop :=
  (initRespawns C results w).2 = true
  <-> exists rows, results = Some rows /\ rows <> [].

(* ===================================================================== *)
(** ** The rest of World.cpp *)
(* ===================================================================== *)

(** *** The singleton *)

(** What [World::create] calls besides [initRespawns]: the constructor and
    the two initialisers of the command maps, defined in other files. *)
Record Startup : Type := {
  newWorld : World;
  InitGMCommands : World -> World;
  InitPlayerCommands : World -> World
}.

(** A value returned or an exception thrown. *)
Inductive outcome (A : Type) : Type :=
| Returned (a : A)
| Thrown (what : string).

Arguments Returned {A} a.
Arguments Thrown {A} what.

(** [World::create].  [self] is the static [_self]; the result is [_self]
    afterwards, which is also what the call returns.  [results] is what the
    query of [initRespawns] produces if it is run; the boolean that
    [initRespawns] returns is dropped.  The list of monitoring clients
    that [create] makes last is not a part of this model. *)
Definition create (C : Collaborators) (S : Startup) (results : option (list Row))
    (self : option World) : option World :=
  match self with
  | None =>
      Some (InitPlayerCommands S
              (InitGMCommands S (initRespawns C results (newWorld S)).1))
  | Some _ => self
  end.

(** [World::get] *)
Definition get (self : option World) : outcome World :=
  match self with
  | None => Thrown "world was not created"
  | Some w => Returned w
  end.

(** *** The queue of immediate commands *)


(** [World::checkPlayerImmediateCommands], run without a producer pushing in
    between: front, pop, and [workoutCommands] for a player that is online.
    What the commands of a player do is not known here and may reach
    anything: [S] is the state of all they can reach, [isOnline st player]
    what [player->Connection->online] reads in that state, and
    [workout player] what [player->workoutCommands()] does to it.  Result:
    the state afterwards and the players whose commands ran, in that order;
    the queue is empty when the loop ends. *)
Fixpoint checkPlayerImmediateCommands {S : Type} (isOnline : S -> Z -> bool)
    (workout : Z -> S -> S) (queue : list Z) (st : S) : S * list Z :=
  match queue with
  | [] => (st, [])
  | player :: rest =>
      if isOnline st player then
        let '(st', served) :=
          checkPlayerImmediateCommands isOnline workout rest (workout player st) in
        (st', player :: served)
      else checkPlayerImmediateCommands isOnline workout rest st
  end.

(** *** The turn of a monster that acts *)

(** The entry of the monster table as far as the turn reads it:
    [monStruct.script] is set, [monStruct.canselfheal]. *)
Record MonsterStruct : Type := {
  hasMonsterScript : bool;
  canselfheal : bool
}.

(** A monster with the members that the turn reads and writes besides those
    of [Monster]: the memory of the last target, the enemy, and the ids of
    the items in [LEFT_TOOL] and [RIGHT_TOOL].  The model follows the
    writes that [World.cpp] itself makes to them, which decide the later
    branches of the turn; what a call into another class does to the
    monster is not known here, so the statements about a turn are made
    about its calls. *)
Record Mind : Type := {
  body : Monster;
  lastTargetPosition : position;
  lastTargetSeen : bool;
  enemyid : Z;
  enemytype : Z;
  leftTool : Z;
  rightTool : Z
}.

(** The two searches of a turn: in attack range and in view range. *)
Inductive Stage : Type := Near | InView.

(** What the calls of one turn into other classes answer.  The answers of a
    call that is made twice may differ, since the attack lies between. *)
Record Answers : Type := {
  foundMonster : bool;                (* monsterDescriptions->exists(type) *)
  monStruct : MonsterStruct;          (* the entry operator[] hands out *)
  weaponItems : gmap Z Z;             (* Data::weaponItems(): id to Range *)
  canAttack : Stage -> bool;
  canFight : bool;
  scriptSetTarget : Stage -> list Character -> bool * option Character;
  fightingSetTarget : Stage -> list Character -> option Character;
  getType : Character -> Z;
  enemyNear : Character -> bool;
  enemyOnSight : Character -> bool;
  characterAttacks : bool;
  makesRandomStep : bool;             (* Random::uniform() < randomMonsterMoveProbability *)
  drawnDirection : direction;         (* Random::uniform(minDirection, maxDirection) *)
  stepTaken : bool;                   (* monster.move(dir) could enter the field *)
  waypointMove : bool                 (* monster.waypoints.makeMove() *)
}.

(** The calls of a turn into other classes, in the order they are made. *)
Inductive Call : Type :=
| SetTarget (st : Stage)              (* monStruct.script->setTarget *)
| FightingSetTarget (st : Stage)      (* script::server::fighting().setTarget *)
| EnemyNear (target : Z)
| EnemyOnSight (target : Z)
| TurnTo (p : position)               (* monster.turn *)
| CharacterAttacks
| PerformStep (p : position)
| Heal
| Move (d : direction)
| MakeMove
| AbortRoute
| LogMissing.                         (* the Logger lines about a missing monster id *)

(** [range]: the right tool if the weapon table has it, else the left tool
    if the table has it, else 1. *)
Definition attackRange (A : Answers) (m : Mind) : Z :=
  match weaponItems A !! rightTool m with
  | Some r => r
  | None =>
      match weaponItems A !! leftTool m with
      | Some r => r
      | None => 1
      end
  end.

(** The choice of a target: the script of the monster if there is one and it
    answers true, the fighting script otherwise. *)
Definition chooseTarget (A : Answers) (st : Stage) (candidates : list Character)
    : option Character * list Call :=
  if hasMonsterScript (monStruct A) then
    let '(answered, target) := scriptSetTarget A st candidates in
    if answered then (target, [SetTarget st])
    else (fightingSetTarget A st candidates, [SetTarget st; FightingSetTarget st])
  else (fightingSetTarget A st candidates, [FightingSetTarget st]).

Definition forget (m : Mind) : Mind :=
  {| body := body m; lastTargetPosition := lastTargetPosition m;
     lastTargetSeen := false; enemyid := enemyid m; enemytype := enemytype m;
     leftTool := leftTool m; rightTool := rightTool m |}.

(** The target is remembered as seen. *)
Definition remember (target : Character) (m : Mind) : Mind :=
  {| body := body m; lastTargetPosition := pos target;
     lastTargetSeen := true; enemyid := enemyid m; enemytype := enemytype m;
     leftTool := leftTool m; rightTool := rightTool m |}.

(** The target is made the enemy and remembered as seen. *)
Definition engage (A : Answers) (target : Character) (m : Mind) : Mind :=
  {| body := body m; lastTargetPosition := pos target;
     lastTargetSeen := true; enemyid := id target; enemytype := getType A target;
     leftTool := leftTool m; rightTool := rightTool m |}.

Definition with_body (b : Monster) (m : Mind) : Mind :=
  {| body := b; lastTargetPosition := lastTargetPosition m;
     lastTargetSeen := lastTargetSeen m; enemyid := enemyid m;
     enemytype := enemytype m; leftTool := leftTool m; rightTool := rightTool m |}.

(** How the search in attack range ends. *)
Inductive NearEnd : Type :=
| Vetoed            (* enemyNear answered true: the lambda returns *)
| HasAttacked       (* has_attacked is true *)
| NotAttacked.      (* has_attacked is false *)

(** The search in attack range of a monster that is not on a route. *)
Definition nearStage (A : Answers) (w : World) (m : Mind)
    : Mind * list Call * NearEnd :=
  let here := pos (mchar (body m)) in
  match getTargetsInRange w here (attackRange A m) with
  | [] => (m, [], NotAttacked)
  | temp =>
      if canAttack A Near then
        let '(target, chosen) := chooseTarget A Near temp in
        match target with
        | Some t =>
            let m1 := engage A t m in
            let hook :=
              if foundMonster A then
                if hasMonsterScript (monStruct A) then [EnemyNear (id t)] else []
              else [LogMissing] in
            if foundMonster A && hasMonsterScript (monStruct A) && enemyNear A t then
              (m1, chosen ++ hook, Vetoed)
            else if canFight A then
              (m1, chosen ++ hook ++ [TurnTo (pos t); CharacterAttacks],
               if characterAttacks A then HasAttacked else NotAttacked)
            else
              (m1, chosen ++ hook ++ [TurnTo (pos t)], HasAttacked)
        | None => (m, chosen, NotAttacked)
        end
      else (m, [], NotAttacked)
  end.

(** The block under [if (canMakeRandomStep)]: the monster heals itself, or
    takes a random step and pays for it. *)
Definition idleStage (K : Tuning) (A : Answers) (m : Mind) : Mind * list Call :=
  let missing := if foundMonster A then [] else [LogMissing] in
  if makesRandomStep A && foundMonster A && canselfheal (monStruct A) then
    (m, missing ++ [Heal])
  else
    let c := mchar (body m) in
    (with_body (randomStep K (drawnDirection A) (stepTaken A) (body m)) m,
     missing ++ [Move (wanderDirection (getSpawn (body m)) (pos c) (drawnDirection A))]).

(** The block under [if (!has_attacked)]: the search in view range, the
    step towards a target seen or remembered, the random step. *)
Definition viewStage (K : Tuning) (A : Answers) (MONSTERVIEWRANGE : Z)
    (w : World) (m : Mind) : Mind * list Call :=
  let here := pos (mchar (body m)) in
  let targets := getTargetsInRange w here MONSTERVIEWRANGE in
  if match targets with [] => false | _ => true end && canAttack A InView then
    let '(targetChar, chosen) := chooseTarget A InView targets in
    match targetChar with
    | Some t =>
        let m1 := remember t m in
        if foundMonster A then
          if hasMonsterScript (monStruct A) then
            if enemyOnSight A t then (m1, chosen ++ [EnemyOnSight (id t)])
            else (m1, chosen ++ [EnemyOnSight (id t); PerformStep (pos t)])
          else (m1, chosen ++ [PerformStep (pos t)])
        else
          let '(m2, calls) := idleStage K A m1 in
          (m2, chosen ++ [LogMissing] ++ calls)
    | None =>
        let '(m2, calls) := idleStage K A m in
        (m2, chosen ++ calls)
    end
  else if lastTargetSeen m then
    (m, [PerformStep (lastTargetPosition m)])
  else idleStage K A m.

(** The branch [if (!monster.getOnRoute())]. *)
Definition turnOffRoute (K : Tuning) (A : Answers) (MONSTERVIEWRANGE : Z)
    (w : World) (m : Mind) : Mind * list Call :=
  let here := pos (mchar (body m)) in
  let m0 := if position_eqb here (lastTargetPosition m) then forget m else m in
  let '(m1, calls1, ending) := nearStage A w m0 in
  match ending with
  | NotAttacked =>
      let '(m2, calls2) := viewStage K A MONSTERVIEWRANGE w m1 in
      (m2, calls1 ++ calls2)
  | _ => (m1, calls1)
  end.

(** One search of a monster on a route: the script is told, nothing else
    happens. *)
Definition observe (A : Answers) (st : Stage) (candidates : list Character)
    : list Call :=
  match candidates with
  | [] => []
  | _ =>
      let '(target, chosen) := chooseTarget A st candidates in
      match target with
      | Some t =>
          if foundMonster A && hasMonsterScript (monStruct A) then
            chosen ++ [match st with
                       | Near => EnemyNear (id t)
                       | InView => EnemyOnSight (id t)
                       end]
          else
            chosen ++ match st with Near => [LogMissing] | InView => [] end
      | None => chosen
      end
  end.

(** The branch of a monster on a route. *)
Definition turnOnRoute (A : Answers) (MONSTERVIEWRANGE : Z) (w : World)
    (m : Mind) : Mind * list Call :=
  let here := pos (mchar (body m)) in
  let calls1 := observe A Near (getTargetsInRange w here (attackRange A m)) in
  let calls2 := observe A InView (getTargetsInRange w here MONSTERVIEWRANGE) in
  if waypointMove A then
    (m, calls1 ++ calls2 ++ [MakeMove])
  else
    (with_body (with_mchar (setOnRoute false (mchar (body m))) (body m)) m,
     calls1 ++ calls2 ++ [MakeMove]
       ++ (if foundMonster A && hasMonsterScript (monStruct A)
           then [AbortRoute] else [LogMissing])).

(** Lines 277 to 522 of [checkMonsters]: the turn of a live monster that
    can act and was not skipped.  The calls into other classes are recorded
    and answered by [A]; what they do to the monster or to the world beyond
    their answer is outside this model. *)
Definition monsterTurn (K : Tuning) (A : Answers) (MONSTERVIEWRANGE : Z)
    (w : World) (m : Mind) : Mind * list Call :=
  if onRoute (mchar (body m)) then turnOnRoute A MONSTERVIEWRANGE w m
  else turnOffRoute K A MONSTERVIEWRANGE w m.

(** *** Vocabulary of the further statements *)

(** Whose reservoir a call raises, and by how much. *)
Definition apCredit (a : Action) : list (Z * Z) :=
  match a with CreditAP who n => [(who, n)] | _ => [] end.

Definition fpCredit (a : Action) : list (Z * Z) :=
  match a with CreditFP who n => [(who, n)] | _ => [] end.

Definition apCredits (acts : list Action) : list (Z * Z) := flat_map apCredit acts.
Definition fpCredits (acts : list Action) : list (Z * Z) := flat_map fpCredit acts.

Definition shutdowns (acts : list Action) : list Z :=
  flat_map (fun a => match a with ShutdownSend who => [who] | _ => [] end) acts.

Definition logouts (acts : list Action) : list Z :=
  flat_map (fun a => match a with Logout who => [who] | _ => [] end) acts.

Definition kills (acts : list Action) : list Z :=
  flat_map (fun a => match a with Kill who => [who] | _ => [] end) acts.

Definition appearances (acts : list Action) : list Z :=
  flat_map (fun a => match a with Appear who => [who] | _ => [] end) acts.

(** The NPC that a call of the NPC pass credits or announces. *)
Definition creditedOrSpun (a : Action) : list Z :=
  match a with CreditAP who _ | Spin who => [who] | _ => [] end.

(** Who takes a turn. *)
Definition acted (acts : list Action) : list Z :=
  flat_map (fun a => match a with Act who => [who] | _ => [] end) acts.

(** The keepalive of the player is neither in the future nor older than
    [CLIENT_TIMEOUT]. *)
Definition inWindow (K : Tuning) (now : Z) (p : Player) : bool :=
  (0 <=? now - lastkeepalive p) && (now - lastkeepalive p <=? CLIENT_TIMEOUT K).

Definition playerId (p : Player) : Z := id (pchar p).
Definition monsterId (m : Monster) : Z := id (mchar m).
Definition npcId (n : NPC) : Z := id (nchar n).



(** The calls with which the monster itself does something: it turns,
    attacks, walks or heals. *)
Definition isDeed (c : Call) : bool :=
  match c with
  | TurnTo _ | CharacterAttacks | PerformStep _ | Heal | Move _ => true
  | _ => false
  end.


(** *** Further samples *)

Definition sampleMind (x y : Z) (seen : bool) (tx ty : Z) : Mind :=
  {| body := sampleMonster 11 x y;
     lastTargetPosition := {| px := tx; py := ty; pz := 0 |};
     lastTargetSeen := seen; enemyid := 0; enemytype := 0;
     leftTool := 0; rightTool := 0 |}.

(** The sample monster on a route. *)
Definition routedMind (x y : Z) : Mind :=
  with_body (with_mchar (setOnRoute true (mchar (sampleMonster 11 x y)))
               (sampleMonster 11 x y))
            (sampleMind x y false 0 0).

(** A monster with a script that picks the first candidate, finds the
    enemy near and ends the turn there. *)
Definition vetoingAnswers : Answers :=
  {| foundMonster := true;
     monStruct := {| hasMonsterScript := true; canselfheal := false |};
     weaponItems := {[ 40 := 2 ]};
     canAttack := fun _ => true;
     canFight := true;
     scriptSetTarget := fun _ candidates => (true, head candidates);
     fightingSetTarget := fun _ candidates => head candidates;
     getType := fun _ => 0;
     enemyNear := fun _ => true;
     enemyOnSight := fun _ => false;
     characterAttacks := true;
     makesRandomStep := false;
     drawnDirection := dir_east;
     stepTaken := true;
     waypointMove := false |}.

(** One player next to the sample monster at (104, 100). *)
Definition besetWorld : World :=
  {| usedAP := 0; ap := 1; Players := [samplePlayer 1 105 100 0 0];
     Monsters := [sampleMonster 11 104 100]; Npc := [];
     SpawnList := [sampleSpawn]; newMonsters := [] |}.

(* ===================================================================== *)
(** * Proofs *)
(* ===================================================================== *)

(** ** Machine integers *)

(** Spells out the bounds of [int] and [int16_t] so that [lia] reads them. *)
Ltac machine_bounds :=
  unfold in_int, in_Coordinate, to_int, to_Coordinate, wrap_signed in *;
  change (2 ^ (32 - 1)) with 2147483648 in *;
  change (2 ^ 32) with 4294967296 in *;
  change (2 ^ 31) with 2147483648 in *;
  change (2 ^ (16 - 1)) with 32768 in *;
  change (2 ^ 16) with 65536 in *;
  change (2 ^ 15) with 32768 in *.

Lemma to_int_in_range (v : Z) : in_int v -> to_int v = v.
Proof. intros Hv. machine_bounds. rewrite Z.mod_small by lia. lia. Qed.

Lemma to_int_below (v : Z) : 0 <= v -> to_int v <= v.
Proof.
  intros Hv. machine_bounds.
  pose proof (Z.mod_le (v + 2147483648) 4294967296). lia.
Qed.

Lemma to_Coordinate_in_range (v : Z) : in_Coordinate v -> to_Coordinate v = v.
Proof. intros Hv. machine_bounds. rewrite Z.mod_small by lia. lia. Qed.

(** For a clock that has not gone back, the truncating quotient of C++ is
    the floor quotient. *)
Lemma quot_is_floor (e m : Z) : 0 <= e -> 0 < m -> Z.quot e m = e / m.
Proof. intros He Hm. apply Z.quot_div_nonneg; lia. Qed.

(** ** Traces *)

Lemma entered_app (l1 l2 : list Event) : entered (l1 ++ l2) = entered l1 ++ entered l2.
Proof. unfold entered. rewrite List.filter_app, map_app. reflexivity. Qed.

Lemma entered_tag (p : Pass) (acts : list Action) :
  entered (tag p acts) = map (fun _ => p) (List.filter isEnter acts).
Proof.
  unfold entered, tag. induction acts as [|a acts IH]; simpl; [reflexivity|].
  destruct (isEnter a); simpl; rewrite IH; reflexivity.
Qed.

Lemma concat_noEnter {A : Type} (f : A -> list Action) (l : list A) :
  (forall x, List.filter isEnter (f x) = []) ->
  List.filter isEnter (List.concat (map f l)) = [].
Proof.
  intros Hf. induction l as [|x l IH]; simpl; [reflexivity|].
  rewrite List.filter_app, Hf, IH. reflexivity.
Qed.

Lemma map_noEnter {A : Type} (f : A -> Action) (l : list A) :
  (forall x, isEnter (f x) = false) -> List.filter isEnter (map f l) = [].
Proof.
  intros Hf. induction l as [|x l IH]; simpl; [reflexivity|].
  rewrite Hf. exact IH.
Qed.

Lemma passActions_app (p : Pass) (l1 l2 : list Event) :
  passActions p (l1 ++ l2) = passActions p l1 ++ passActions p l2.
Proof. unfold passActions. rewrite List.filter_app, map_app. reflexivity. Qed.

Lemma passActions_tag (p q : Pass) (acts : list Action) :
  passActions p (tag q acts) = if pass_eqb p q then acts else [].
Proof.
  unfold passActions, tag. induction acts as [|a acts IH]; simpl.
  - destruct (pass_eqb p q); reflexivity.
  - destruct (pass_eqb p q); simpl; [rewrite IH; reflexivity | exact IH].
Qed.

Lemma Forall_flat_map_concat {A : Type} (g : Action -> list Z) (P : Z -> Prop)
    (f : A -> list Action) (l : list A) :
  (forall x, Forall P (flat_map g (f x))) ->
  Forall P (flat_map g (List.concat (map f l))).
Proof.
  intros Hf. induction l as [|x l IH]; simpl; [constructor|].
  rewrite flat_map_app. apply Forall_app. split; [apply Hf | exact IH].
Qed.

Lemma flat_map_map_nil {A : Type} (g : Action -> list Z) (f : A -> Action) (l : list A) :
  (forall x, g (f x) = []) -> flat_map g (map f l) = [].
Proof.
  intros Hf. induction l as [|x l IH]; simpl; [reflexivity|].
  rewrite Hf, IH. reflexivity.
Qed.

Lemma saves_app (l1 l2 : list Action) : saves (l1 ++ l2) = saves l1 ++ saves l2.
Proof. apply flat_map_app. Qed.

Lemma erased_subset (lost : list Z) (players : list Player) (q : Player) :
  In q (fold_left (fun ps i => erase i ps) lost players) -> In q players.
Proof.
  revert players. induction lost as [|i lost IH]; intros players Hin; simpl in Hin.
  - exact Hin.
  - apply IH in Hin. unfold erase in Hin. apply filter_In in Hin. tauto.
Qed.

(** ** The tick driver and the three passes *)

Section Passes.

Context (K : Tuning) (C : Collaborators).

(** *** What the passes leave alone *)

Lemma checkPlayers_frame (now : Z) (w : World) :
  usedAP (checkPlayers K C now w).1 = usedAP w
  /\ ap (checkPlayers K C now w).1 = ap w.
Proof.
  unfold checkPlayers.
  destruct (forEachPlayer K C now (ap w) false (Players w)) as [[[visited saved] lost] acts].
  simpl. split; reflexivity.
Qed.

Lemma checkMonsters_frame (ie se : bool) (w : World) :
  usedAP (checkMonsters K C ie se w).1 = usedAP w
  /\ ap (checkMonsters K C ie se w).1 = throttled (ap w).
Proof.
  unfold checkMonsters, monsterLoop, forEachMonster, throttle, spawnCheck, throttled.
  destruct (ie && se); [destruct (spawnAll C (SpawnList w)) as [spawns made] |];
    simpl; destruct (1 <? ap w); simpl; split; reflexivity.
Qed.

Lemma checkNPC_frame (w : World) :
  usedAP (checkNPC K C w).1 = usedAP w /\ ap (checkNPC K C w).1 = ap w.
Proof. unfold checkNPC. simpl. split; reflexivity. Qed.

Lemma threePasses_usedAP (i : TickInput) (w : World) :
  usedAP (threePasses K C i w).1 = usedAP w.
Proof.
  unfold threePasses.
  pose proof (checkPlayers_frame (unixtime i) w) as [Hp _].
  destruct (checkPlayers K C (unixtime i) w) as [w2 acts2]. simpl in Hp.
  pose proof (checkMonsters_frame (intervalExceeded i) (spawnEnabled i) w2) as [Hm _].
  destruct (checkMonsters K C (intervalExceeded i) (spawnEnabled i) w2) as [w3 acts3].
  simpl in Hm.
  pose proof (checkNPC_frame w3) as [Hn _].
  destruct (checkNPC K C w3) as [w4 acts4]. simpl in *. congruence.
Qed.

(** *** The order of the passes *)

Lemma visitPlayer_noEnter now a saved player :
  List.filter isEnter (visitPlayer K C now a saved player).2 = [].
Proof. unfold visitPlayer. repeat case_match; reflexivity. Qed.

Lemma forEachPlayer_noEnter now a saved players :
  List.filter isEnter (forEachPlayer K C now a saved players).2 = [].
Proof.
  revert saved. induction players as [|player rest IH]; intros saved; simpl.
  - reflexivity.
  - pose proof (visitPlayer_noEnter now a saved player) as Hv.
    destruct (visitPlayer K C now a saved player) as [[[p' s1] l1] a1].
    specialize (IH s1).
    destruct (forEachPlayer K C now a s1 rest) as [[[r' s2] l2] a2].
    simpl in *. rewrite List.filter_app, Hv, IH. reflexivity.
Qed.

Lemma visitMonster_noEnter players a monster :
  List.filter isEnter (visitMonster K C players a monster).2 = [].
Proof. unfold visitMonster. repeat case_match; reflexivity. Qed.

Lemma visitNPC_noEnter players a npc :
  List.filter isEnter (visitNPC K C players a npc).2 = [].
Proof. unfold visitNPC. repeat case_match; reflexivity. Qed.

Lemma checkPlayers_enters_once now w :
  List.filter isEnter (checkPlayers K C now w).2 = [Enter].
Proof.
  unfold checkPlayers.
  pose proof (forEachPlayer_noEnter now (ap w) false (Players w)) as Hf.
  destruct (forEachPlayer K C now (ap w) false (Players w)) as [[[visited saved] lost] acts].
  simpl in *. rewrite List.filter_app, Hf. destruct lost; reflexivity.
Qed.

Lemma monsterLoop_enters_once w :
  List.filter isEnter (monsterLoop K C w).2 = [Enter].
Proof.
  unfold monsterLoop, forEachMonster. cbn [snd List.filter isEnter].
  rewrite !List.filter_app.
  rewrite (map_map (visitMonster K C (Players w) (ap w)) (fun v => v.2)).
  rewrite concat_noEnter by (intros x; apply visitMonster_noEnter).
  rewrite !map_noEnter by reflexivity. reflexivity.
Qed.

Lemma checkNPC_enters_once w :
  List.filter isEnter (checkNPC K C w).2 = [Enter].
Proof.
  unfold checkNPC. cbn [snd List.filter isEnter].
  rewrite (map_map (visitNPC K C (Players w) (ap w)) snd).
  rewrite concat_noEnter by (intros x; apply visitNPC_noEnter). reflexivity.
Qed.

Lemma threePasses_entered i w :
  entered (threePasses K C i w).2 = [PassPlayers; PassMonsters; PassNPC].
Proof.
  unfold threePasses.
  pose proof (checkPlayers_enters_once (unixtime i) w) as Hp.
  destruct (checkPlayers K C (unixtime i) w) as [w2 acts2].
  pose proof (monsterLoop_enters_once
                (throttle (spawnCheck C (intervalExceeded i) (spawnEnabled i) w2))) as Hm.
  fold (checkMonsters K C (intervalExceeded i) (spawnEnabled i) w2) in Hm.
  destruct (checkMonsters K C (intervalExceeded i) (spawnEnabled i) w2) as [w3 acts3].
  pose proof (checkNPC_enters_once w3) as Hn.
  destruct (checkNPC K C w3) as [w4 acts4].
  cbn [snd] in *. rewrite !entered_app, !entered_tag, Hp, Hm, Hn. reflexivity.
Qed.

(** *** The ledger of action points *)

(** The tick driver runs the passes on the world whose [ap] and [usedAP] it
    has just set, whatever the conversion to [int] made of the quotient. *)
Lemma turntheworld_unfold i w :
  let a := to_int (Z.quot (elapsed i) (MIN_AP_UPDATE K) - usedAP w) in
  turntheworld K C i w
  = if 0 <? a then threePasses K C i (set_usedAP (usedAP w + a) (set_ap a w))
    else (set_ap a w, []).
Proof. reflexivity. Qed.

(** C1 (as amended).  When the clock has not gone back and the quotient
    [elapsed / MIN_AP_UPDATE] minus [usedAP] fits in an [int], one call of
    [turntheworld] sets [ap] to that difference; a positive [ap] is added to
    [usedAP] and the passes run in the order players, monsters, NPCs; for
    [ap <= 0] nothing but the field [ap] changes and no pass runs.  So
    [usedAP] does not go down and stays at or below the quotient. *)
Theorem turntheworld_ledger (i : TickInput) (w : World) :
  0 < MIN_AP_UPDATE K ->
  0 <= elapsed i ->
  in_int (elapsed i / MIN_AP_UPDATE K - usedAP w) ->
  let a := elapsed i / MIN_AP_UPDATE K - usedAP w in
  let r := turntheworld K C i w in
  (0 < a ->
     r = threePasses K C i (set_usedAP (usedAP w + a) (set_ap a w))
     /\ entered r.2 = [PassPlayers; PassMonsters; PassNPC]
     /\ usedAP r.1 = usedAP w + a)
  /\ (a <= 0 -> r = (set_ap a w, []))
  /\ (usedAP w <= elapsed i / MIN_AP_UPDATE K ->
      usedAP w <= usedAP r.1 <= elapsed i / MIN_AP_UPDATE K).
Proof.
  intros Hm He Hfit a r.
  assert (Hr : r = if 0 <? a
                   then threePasses K C i (set_usedAP (usedAP w + a) (set_ap a w))
                   else (set_ap a w, [])).
  { subst r. rewrite turntheworld_unfold. cbv zeta.
    rewrite quot_is_floor by assumption.
    rewrite to_int_in_range by assumption. reflexivity. }
  assert (Hpos : 0 < a ->
     r = threePasses K C i (set_usedAP (usedAP w + a) (set_ap a w))
     /\ entered r.2 = [PassPlayers; PassMonsters; PassNPC]
     /\ usedAP r.1 = usedAP w + a).
  { intros Ha. apply Z.ltb_lt in Ha. rewrite Ha in Hr.
    rewrite Hr. split; [reflexivity|]. split.
    - apply threePasses_entered.
    - rewrite threePasses_usedAP. reflexivity. }
  assert (Hneg : a <= 0 -> r = (set_ap a w, [])).
  { intros Ha. apply Z.ltb_ge in Ha. rewrite Ha in Hr. exact Hr. }
  split; [exact Hpos|]. split; [exact Hneg|].
  intros Hinv. destruct (Z.lt_ge_cases 0 a) as [Ha|Ha].
  - destruct (Hpos Ha) as (_ & _ & Hu). rewrite Hu. subst a. lia.
  - rewrite (Hneg Ha). simpl. lia.
Qed.

(** The bound on [usedAP] does not depend on the quotient fitting in an
    [int]: the conversion can only make [ap] smaller. *)
Lemma usedAP_never_ahead (i : TickInput) (w : World) :
  0 < MIN_AP_UPDATE K ->
  0 <= elapsed i ->
  usedAP w <= elapsed i / MIN_AP_UPDATE K ->
  usedAP w <= usedAP (turntheworld K C i w).1 <= elapsed i / MIN_AP_UPDATE K.
Proof.
  intros Hm He Hinv. rewrite turntheworld_unfold. cbv zeta.
  rewrite quot_is_floor by assumption.
  pose proof (to_int_below (elapsed i / MIN_AP_UPDATE K - usedAP w)) as Hb.
  destruct (0 <? _) eqn:Ha.
  - rewrite threePasses_usedAP. simpl. apply Z.ltb_lt in Ha. lia.
  - simpl. lia.
Qed.

(** X3.  Over any run of calls whose clock readings do not go back,
    [usedAP] never goes down and never gets ahead of the number of whole
    [MIN_AP_UPDATE] intervals at the last reading, however long the server
    stalled in between and whatever the conversion to [int] made of the
    difference. *)
Lemma usedAP_run (inputs : list TickInput) :
  0 < MIN_AP_UPDATE K ->
  forall (e : Z) (w : World),
    0 <= e ->
    usedAP w <= e / MIN_AP_UPDATE K ->
    monotoneFrom e inputs ->
    usedAP w <= usedAP (run K C inputs w).1 <= lastElapsed e inputs / MIN_AP_UPDATE K.
Proof.
  intros Hm. induction inputs as [|i rest IH]; intros e w He Hinv Hmono; simpl.
  - lia.
  - destruct Hmono as [Hle Hmono].
    assert (Hq : e / MIN_AP_UPDATE K <= elapsed i / MIN_AP_UPDATE K)
      by (apply Z.div_le_mono; lia).
    pose proof (usedAP_never_ahead i w Hm ltac:(lia) ltac:(lia)) as Hstep.
    destruct (turntheworld K C i w) as [w1 evs1]. simpl in Hstep.
    specialize (IH (elapsed i) w1 ltac:(lia) ltac:(lia) Hmono).
    destruct (run K C rest w1) as [w2 evs2]. simpl in *. lia.
Qed.

(** *** Which amount each pass credits *)

Lemma visitMonster_credits players a monster :
  Forall (fun n => n = a) (creditsAP (visitMonster K C players a monster).2)
  /\ Forall (fun n => n = a) (creditsFP (visitMonster K C players a monster).2).
Proof.
  unfold visitMonster.
  repeat case_match; simpl; split; repeat constructor.
Qed.

Lemma visitNPC_credits players a npc :
  Forall (fun n => n = a) (creditsAP (visitNPC K C players a npc).2).
Proof. unfold visitNPC. repeat case_match; simpl; repeat constructor. Qed.

Lemma monsterLoop_credits w :
  Forall (fun n => n = ap w) (creditsAP (monsterLoop K C w).2)
  /\ Forall (fun n => n = ap w) (creditsFP (monsterLoop K C w).2).
Proof.
  unfold monsterLoop, forEachMonster, creditsAP, creditsFP. cbn [snd flat_map apAmount fpAmount].
  rewrite !flat_map_app, !app_nil_l.
  rewrite !(flat_map_map_nil _ Kill) by reflexivity.
  rewrite !(flat_map_map_nil _ (fun m => Appear (id (mchar m)))) by reflexivity.
  rewrite !app_nil_r.
  rewrite (map_map (visitMonster K C (Players w) (ap w)) (fun v => v.2)).
  split; apply Forall_flat_map_concat; intros x; apply visitMonster_credits.
Qed.

Lemma checkMonsters_credits ie se w :
  Forall (fun n => n = throttled (ap w)) (creditsAP (checkMonsters K C ie se w).2)
  /\ Forall (fun n => n = throttled (ap w)) (creditsFP (checkMonsters K C ie se w).2).
Proof.
  unfold checkMonsters.
  pose proof (monsterLoop_credits (throttle (spawnCheck C ie se w))) as H.
  assert (Hap : ap (throttle (spawnCheck C ie se w)) = throttled (ap w)).
  { unfold throttle, spawnCheck, throttled.
    destruct (ie && se); [destruct (spawnAll C (SpawnList w))|];
      simpl; destruct (1 <? ap w); reflexivity. }
  rewrite Hap in H. exact H.
Qed.

Lemma checkNPC_credits w :
  Forall (fun n => n = ap w) (creditsAP (checkNPC K C w).2).
Proof.
  unfold checkNPC, creditsAP. cbn [snd flat_map apAmount]. rewrite app_nil_l.
  rewrite (map_map (visitNPC K C (Players w) (ap w)) snd).
  apply Forall_flat_map_concat. intros x. apply visitNPC_credits.
Qed.

Lemma threePasses_credits i w :
  let evs := (threePasses K C i w).2 in
  Forall (fun n => n = throttled (ap w)) (creditsAP (passActions PassMonsters evs))
  /\ Forall (fun n => n = throttled (ap w)) (creditsFP (passActions PassMonsters evs))
  /\ Forall (fun n => n = throttled (ap w)) (creditsAP (passActions PassNPC evs)).
Proof.
  unfold threePasses.
  pose proof (checkPlayers_frame (unixtime i) w) as [_ Hp].
  destruct (checkPlayers K C (unixtime i) w) as [w2 acts2]. simpl in Hp.
  pose proof (checkMonsters_frame (intervalExceeded i) (spawnEnabled i) w2) as [_ Hm].
  pose proof (checkMonsters_credits (intervalExceeded i) (spawnEnabled i) w2) as [Hc1 Hc2].
  destruct (checkMonsters K C (intervalExceeded i) (spawnEnabled i) w2) as [w3 acts3].
  simpl in Hm, Hc1, Hc2.
  pose proof (checkNPC_credits w3) as Hn.
  destruct (checkNPC K C w3) as [w4 acts4]. simpl in Hn.
  cbv zeta. cbn [snd]. rewrite !passActions_app, !passActions_tag. simpl.
  rewrite !app_nil_r. rewrite Hm, Hp in *. auto.
Qed.

(** C3 (as amended).  Right after the spawn check the monster pass lowers
    [ap] by one when it was above one and credits every monster that amount;
    the field stays lowered, and the NPC pass of the same tick credits the
    NPCs the decremented amount too. *)
Theorem throttled_ap_reaches_NPCs (i : TickInput) (w : World) :
  let a := to_int (Z.quot (elapsed i) (MIN_AP_UPDATE K) - usedAP w) in
  let evs := (turntheworld K C i w).2 in
  (forall ie se w',
     checkMonsters K C ie se w' = monsterLoop K C (throttle (spawnCheck C ie se w'))
     /\ ap (throttle (spawnCheck C ie se w')) = throttled (ap w')
     /\ ap (checkMonsters K C ie se w').1 = throttled (ap w'))
  /\ Forall (fun n => n = throttled a) (creditsAP (passActions PassMonsters evs))
  /\ Forall (fun n => n = throttled a) (creditsFP (passActions PassMonsters evs))
  /\ Forall (fun n => n = throttled a) (creditsAP (passActions PassNPC evs)).
Proof.
  intros a evs. split.
  { intros ie se w'. split; [reflexivity|]. split; [|apply checkMonsters_frame].
    unfold throttle, spawnCheck, throttled.
    destruct (ie && se); [destruct (spawnAll C (SpawnList w'))|];
      simpl; destruct (1 <? ap w'); reflexivity. }
  subst evs. rewrite turntheworld_unfold. fold a. cbv zeta.
  destruct (0 <? a).
  - apply (threePasses_credits i (set_usedAP (usedAP w + a) (set_ap a w))).
  - simpl. repeat split; constructor.
Qed.

(** *** Idle monsters and NPCs *)

(** C4 (as amended).  A live monster and a live NPC with no player within
    [MAX_ACT_RANGE] and not on a route are credited first (action points,
    and fight points for the monster, up to the cap; one cycle of the
    effects) and only then skipped: nothing else is done in their turn. *)
Theorem idle_credited_then_skipped (players : list Player) (a : Z)
    (monster : Monster) (npc : NPC) :
  alive (mchar monster) = true ->
  isPlayerNearby K C players (mchar monster) = false ->
  onRoute (mchar monster) = false ->
  alive (nchar npc) = true ->
  isPlayerNearby K C players (nchar npc) = false ->
  onRoute (nchar npc) = false ->
  let m := id (mchar monster) in
  let n := id (nchar npc) in
  visitMonster K C players a monster
  = (with_mchar
       (checkEffects
          (increaseFightPoints K a (increaseActionPoints K a (mchar monster))))
       monster,
     [], [CreditAP m a; CreditFP m a; CheckEffects m])
  /\ visitNPC K C players a npc
     = (with_nchar (checkEffects (increaseActionPoints K a (nchar npc))) npc,
        [CreditAP n a; CheckEffects n])
  /\ (let c' := mchar (visitMonster K C players a monster).1.1 in
      actionPoints c' = Z.min (MAX_AP K) (actionPoints (mchar monster) + a)
      /\ fightPoints c' = Z.min (MAX_FP K) (fightPoints (mchar monster) + a)
      /\ effects c' = S (effects (mchar monster)))
  /\ (let c' := nchar (visitNPC K C players a npc).1 in
      actionPoints c' = Z.min (MAX_AP K) (actionPoints (nchar npc) + a)
      /\ fightPoints c' = fightPoints (nchar npc)
      /\ effects c' = S (effects (nchar npc))).
Proof.
  intros Hma Hmn Hmr Hna Hnn Hnr m n.
  assert (Hm : visitMonster K C players a monster
    = (with_mchar
         (checkEffects
            (increaseFightPoints K a (increaseActionPoints K a (mchar monster))))
         monster,
       [], [CreditAP m a; CreditFP m a; CheckEffects m])).
  { unfold visitMonster, isPlayerNearby in *. rewrite Hma. simpl.
    destruct (getPlayersInRangeOf C players (pos (mchar monster)) (MAX_ACT_RANGE K));
      [|discriminate].
    rewrite Hmr. simpl. destruct (canAct C _); reflexivity. }
  assert (Hn : visitNPC K C players a npc
    = (with_nchar (checkEffects (increaseActionPoints K a (nchar npc))) npc,
       [CreditAP n a; CheckEffects n])).
  { unfold visitNPC, isPlayerNearby in *. rewrite Hna. simpl.
    destruct (getPlayersInRangeOf C players (pos (nchar npc)) (MAX_ACT_RANGE K));
      [|discriminate].
    rewrite Hnr. reflexivity. }
  rewrite Hm, Hn. simpl. repeat split; reflexivity.
Qed.

(** *** One save per player pass *)

(** A list has a first element that is due, or none. *)
Lemma first_due_or_none (due : Player -> bool) (players : list Player) :
  Forall (fun q => due q = false) players
  \/ exists pre player post,
       players = pre ++ player :: post
       /\ Forall (fun q => due q = false) pre
       /\ due player = true.
Proof.
  induction players as [|q rest IH].
  - left. constructor.
  - destruct (due q) eqn:Hq.
    + right. exists [], q, rest. repeat split; [constructor | assumption].
    + destruct IH as [Hall | (pre & player & post & -> & Hpre & Hdue)].
      * left. constructor; assumption.
      * right. exists (q :: pre), player, post. repeat split; [constructor|]; assumption.
Qed.

Lemma saves_checkPlayers now w :
  saves (checkPlayers K C now w).2
  = saves (forEachPlayer K C now (ap w) false (Players w)).2.
Proof.
  unfold checkPlayers.
  destruct (forEachPlayer K C now (ap w) false (Players w)) as [[[visited saved] lost] acts].
  cbn [snd]. change (Enter :: ?l) with ([Enter] ++ l).
  rewrite !saves_app. destruct lost; simpl; rewrite app_nil_r; reflexivity.
Qed.

(** A visit that does not save: the flag is already set, or the player is
    not due when the test is made. *)
Lemma visitPlayer_no_save now a saved player :
  saved = true \/ dueWhenChecked K C now a player = false ->
  let r := visitPlayer K C now a saved player in
  r.1.1.2 = saved /\ saves r.2 = []
  /\ lastsavetime r.1.1.1 = checkedSaveTime K C now a player.
Proof.
  intros Hcase. unfold visitPlayer, dueWhenChecked, checkedSaveTime in *. cbv zeta.
  destruct (online player); [|simpl; auto]. cbn [andb] in *.
  destruct ((0 <=? now - lastkeepalive player)
            && (now - lastkeepalive player <=? CLIENT_TIMEOUT K)) eqn:Hwin.
  2:{ simpl; auto. }
  cbn [andb] in Hcase.
  destruct Hcase as [-> | Hdue].
  - simpl. auto.
  - rewrite Hdue, andb_false_r. simpl. auto.
Qed.

(** The visit that saves. *)
Lemma visitPlayer_save now a player :
  dueWhenChecked K C now a player = true ->
  let r := visitPlayer K C now a false player in
  r.1.1.2 = true /\ saves r.2 = [id (pchar player)] /\ lastsavetime r.1.1.1 = now.
Proof.
  intros Hdue. unfold visitPlayer, dueWhenChecked in *. cbv zeta.
  apply andb_true_iff in Hdue as [Hdue Hint].
  apply andb_true_iff in Hdue as [Hdue Hw2].
  apply andb_true_iff in Hdue as [Hon Hw1].
  rewrite Hon, Hw1, Hw2, Hint. simpl. auto.
Qed.

Lemma forEachPlayer_no_save now a saved players :
  saved = true \/ Forall (fun q => dueWhenChecked K C now a q = false) players ->
  let r := forEachPlayer K C now a saved players in
  saves r.2 = []
  /\ map lastsavetime r.1.1.1 = map (checkedSaveTime K C now a) players.
Proof.
  revert saved. induction players as [|player rest IH]; intros saved Hcase; simpl.
  - auto.
  - assert (H1 : saved = true \/ dueWhenChecked K C now a player = false).
    { destruct Hcase as [?|Hall]; [left; assumption | right; inversion Hall; assumption]. }
    pose proof (visitPlayer_no_save now a saved player H1) as (Hs & Hv & Hl).
    destruct (visitPlayer K C now a saved player) as [[[p' s1] l1] a1].
    simpl in Hs, Hv, Hl. subst s1.
    assert (H2 : saved = true
                 \/ Forall (fun q => dueWhenChecked K C now a q = false) rest).
    { destruct Hcase as [?|Hall]; [left; assumption | right; inversion Hall; assumption]. }
    specialize (IH saved H2).
    destruct (forEachPlayer K C now a saved rest) as [[[r' s2] l2] a2].
    simpl in *. destruct IH as [IH1 IH2].
    rewrite saves_app, Hv, IH1, Hl, IH2. auto.
Qed.

Lemma forEachPlayer_first_due now a pre player post :
  Forall (fun q => dueWhenChecked K C now a q = false) pre ->
  dueWhenChecked K C now a player = true ->
  let r := forEachPlayer K C now a false (pre ++ player :: post) in
  saves r.2 = [id (pchar player)]
  /\ map lastsavetime r.1.1.1
     = map (checkedSaveTime K C now a) pre
       ++ now :: map (checkedSaveTime K C now a) post.
Proof.
  intros Hpre Hdue. induction pre as [|q pre IH]; simpl.
  - pose proof (visitPlayer_save now a player Hdue) as (Hs & Hv & Hl).
    destruct (visitPlayer K C now a false player) as [[[p' s1] l1] a1].
    simpl in Hs, Hv, Hl. subst s1.
    pose proof (forEachPlayer_no_save now a true post (or_introl eq_refl)) as [H1 H2].
    destruct (forEachPlayer K C now a true post) as [[[r' s2] l2] a2].
    simpl in *. rewrite saves_app, Hv, H1, Hl, H2. auto.
  - inversion Hpre as [|? ? Hq Hpre']; subst.
    pose proof (visitPlayer_no_save now a false q (or_intror Hq)) as (Hs & Hv & Hl).
    destruct (visitPlayer K C now a false q) as [[[p' s1] l1] a1].
    simpl in Hs, Hv, Hl. subst s1.
    specialize (IH Hpre').
    destruct (forEachPlayer K C now a false (pre ++ player :: post)) as [[[r' s2] l2] a2].
    simpl in *. destruct IH as [IH1 IH2].
    rewrite saves_app, Hv, IH1, Hl, IH2. auto.
Qed.

(** Where the commands, the fight mode and the long time action of a
    player leave the time of its last save alone, the test made after them
    is the test on the player as the pass found it. *)
Lemma keepsSaveTime_checked now a player :
  keepsSaveTime C ->
  dueWhenChecked K C now a player = dueForSave K now player
  /\ checkedSaveTime K C now a player = lastsavetime player.
Proof.
  intros keeps.
  assert (Hl : lastsavetime (servePlayer K C a player) = lastsavetime player)
    by (unfold servePlayer; simpl; rewrite keeps; reflexivity).
  unfold dueWhenChecked, dueForSave, checkedSaveTime. rewrite Hl.
  split; [reflexivity|]. destruct (online player && _ && _); reflexivity.
Qed.

(** C5.  In one player pass [save] is called at most once, whatever the
    calls into other classes do.  The test for a save reads [lastsavetime]
    after the player has been credited and its commands, fight mode and
    long time action have run; with "due" read as online, inside the
    keepalive window and last saved at least [PLAYER_SAVE_INTERVAL] ago at
    that test, [save] is called on the first player in iteration order that
    is due: its [lastsavetime] becomes [now], and every other player, before
    or after it, due or not, keeps the one found at its visit.  Where those
    calls leave [lastsavetime] alone, that is the time the player had
    before the pass, and due is due on the player as the pass finds it. *)
Theorem one_save_per_player_pass (now : Z) (w : World) :
  let visited := (forEachPlayer K C now (ap w) false (Players w)).1.1.1 in
  let saved := saves (checkPlayers K C now w).2 in
  let due := dueWhenChecked K C now (ap w) in
  let found := checkedSaveTime K C now (ap w) in
  (length saved <= 1)%nat
  /\ (Forall (fun q => due q = false) (Players w) ->
      saved = [] /\ map lastsavetime visited = map found (Players w))
  /\ (forall pre player post,
        Players w = pre ++ player :: post ->
        Forall (fun q => due q = false) pre ->
        due player = true ->
        saved = [id (pchar player)]
        /\ map lastsavetime visited = map found pre ++ now :: map found post)
  /\ (forall q, In q (Players (checkPlayers K C now w).1) -> In q visited)
  /\ (keepsSaveTime C ->
      forall q, due q = dueForSave K now q /\ found q = lastsavetime q).
Proof.
  intros visited saved due found. subst saved. rewrite saves_checkPlayers.
  assert (Hnone : Forall (fun q => due q = false) (Players w) ->
      saves (forEachPlayer K C now (ap w) false (Players w)).2 = []
      /\ map lastsavetime visited = map found (Players w)).
  { intros Hall. subst visited.
    apply (forEachPlayer_no_save now (ap w) false (Players w) (or_intror Hall)). }
  assert (Hfirst : forall pre player post,
        Players w = pre ++ player :: post ->
        Forall (fun q => due q = false) pre ->
        due player = true ->
        saves (forEachPlayer K C now (ap w) false (Players w)).2 = [id (pchar player)]
        /\ map lastsavetime visited = map found pre ++ now :: map found post).
  { intros pre player post Hsplit Hpre Hdue. subst visited. rewrite Hsplit.
    apply (forEachPlayer_first_due now (ap w) pre player post Hpre Hdue). }
  split; [|split; [exact Hnone | split; [exact Hfirst | split]]].
  - destruct (first_due_or_none due (Players w))
      as [Hall | (pre & player & post & Hsplit & Hpre & Hdue)].
    + destruct (Hnone Hall) as [-> _]. simpl. lia.
    + destruct (Hfirst pre player post Hsplit Hpre Hdue) as [-> _]. simpl. lia.
  - intros q Hq. subst visited. unfold checkPlayers in Hq.
    destruct (forEachPlayer K C now (ap w) false (Players w)) as [[[vis sv] lost] acts].
    simpl in *. eapply erased_subset. exact Hq.
  - intros keeps q. exact (keepsSaveTime_checked now (ap w) q keeps).
Qed.

End Passes.

(** ** The passes on sample worlds *)

(** The stall scenario of the specification: calls at 0, 80, 220 and 500
    milliseconds with 100 milliseconds per action point grant 0, 0, 2 and 3
    action points. *)
Example stall_scenario :
  map (fun p => usedAP (run sampleTuning plainCollaborators
                            (map sampleInput p) quietWorld).1)
      [[0]; [0; 80]; [0; 80; 220]; [0; 80; 220; 500]]
  = [0; 0; 2; 5].
Proof. vm_compute. reflexivity. Qed.

Lemma turntheworld_ledger_witness :
  (0 < MIN_AP_UPDATE sampleTuning
   /\ 0 <= elapsed (sampleInput 220)
   /\ in_int (elapsed (sampleInput 220) / MIN_AP_UPDATE sampleTuning - usedAP quietWorld))
  /\ usedAP (turntheworld sampleTuning plainCollaborators (sampleInput 220) quietWorld).1
     = 2.
Proof.
  assert (H1 : 0 < MIN_AP_UPDATE sampleTuning) by (vm_compute; reflexivity).
  assert (H2 : 0 <= elapsed (sampleInput 220)) by (vm_compute; discriminate).
  assert (H3 : in_int (elapsed (sampleInput 220) / MIN_AP_UPDATE sampleTuning
                       - usedAP quietWorld))
    by (vm_compute; split; [discriminate | reflexivity]).
  split; [auto|].
  destruct (turntheworld_ledger sampleTuning plainCollaborators (sampleInput 220)
              quietWorld H1 H2 H3) as [Hpos _].
  destruct (Hpos ltac:(vm_compute; reflexivity)) as (_ & _ & Hu).
  rewrite Hu. vm_compute. reflexivity.
Defined.

Lemma turntheworld_int_overflow :
  ~ tickDriver_as_specified sampleTuning plainCollaborators
      (sampleInput 214748364800) emptyWorld.
Proof.
  unfold tickDriver_as_specified. intros [Hpos _].
  specialize (Hpos ltac:(vm_compute; reflexivity)).
  apply (f_equal snd) in Hpos. vm_compute in Hpos. discriminate Hpos.
Qed.

(** A tick of three action points: the monster is credited two, and so is
    the NPC. *)
Example throttled_tick :
  let evs := (turntheworld sampleTuning plainCollaborators (sampleInput 300) quietWorld).2 in
  creditsAP (passActions PassMonsters evs) = [2]
  /\ creditsAP (passActions PassNPC evs) = [2].
Proof. vm_compute. split; reflexivity. Qed.

Lemma throttling_reaches_NPCs :
  ~ throttling_as_specified sampleTuning plainCollaborators (sampleInput 300) quietWorld.
Proof.
  unfold throttling_as_specified. intros (_ & _ & Hnpc).
  specialize (Hnpc 2 ltac:(vm_compute; left; reflexivity)).
  vm_compute in Hnpc. discriminate Hnpc.
Qed.

Lemma idle_credited_then_skipped_witness :
  actionPoints
    (mchar (visitMonster sampleTuning plainCollaborators [] 1
              (sampleMonster 11 104 100)).1.1) = 1
  /\ actionPoints
       (nchar (visitNPC sampleTuning plainCollaborators [] 1 (sampleNPC 21 50 50)).1) = 1.
Proof.
  destruct (idle_credited_then_skipped sampleTuning plainCollaborators [] 1
              (sampleMonster 11 104 100) (sampleNPC 21 50 50)
              eq_refl eq_refl eq_refl eq_refl eq_refl eq_refl)
    as (_ & _ & (Hm & _) & (Hn & _)).
  split; [rewrite Hm | rewrite Hn]; reflexivity.
Defined.

Lemma idle_monster_is_credited :
  ~ earlyOut_as_specified sampleTuning plainCollaborators [] 1
      (sampleMonster 11 104 100) (sampleNPC 21 50 50).
Proof.
  unfold earlyOut_as_specified. intros [Hm _].
  specialize (Hm eq_refl eq_refl eq_refl). vm_compute in Hm.
  destruct Hm as [Hm _]. discriminate Hm.
Qed.

(** Three players that are all due: the first is saved, the other two keep
    the time of their last save. *)
Lemma one_save_per_player_pass_witness :
  saves (checkPlayers sampleTuning plainCollaborators 1000000000 dueWorld).2 = [1]
  /\ map lastsavetime
       (forEachPlayer sampleTuning plainCollaborators 1000000000 (ap dueWorld) false
          (Players dueWorld)).1.1.1
     = [1000000000; 999999000; 999999000].
Proof.
  destruct (one_save_per_player_pass sampleTuning plainCollaborators
              1000000000 dueWorld) as (_ & _ & Hfirst & _).
  exact (Hfirst [] (samplePlayer 1 0 0 999999990 999999000)
           [samplePlayer 2 5 0 999999990 999999000;
            samplePlayer 3 9 0 999999990 999999000]
           eq_refl (List.Forall_nil _) eq_refl).
Defined.

(** The staggered saves of the specification: three players that are all
    due are saved one per tick, in iteration order. *)
Example staggered_saves :
  map (fun n => map lastsavetime
                  (Players (run sampleTuning plainCollaborators
                              (map sampleInput (firstn n [100; 200; 300])) dueWorld).1))
      [1%nat; 2%nat; 3%nat]
  = [[1000000000; 999999000; 999999000];
     [1000000000; 1000000000; 999999000];
     [1000000000; 1000000000; 1000000000]].
Proof. vm_compute. reflexivity. Qed.

(** ** The bounded random wander *)

Lemma mirror_east_west_involutive (d : direction) :
  mirror_east_west (mirror_east_west d) = d.
Proof. destruct d; reflexivity. Qed.

Lemma mirror_north_south_involutive (d : direction) :
  mirror_north_south (mirror_north_south d) = d.
Proof. destruct d; reflexivity. Qed.

Lemma mirrors_commute (d : direction) :
  mirror_north_south (mirror_east_west d) = mirror_east_west (mirror_north_south d).
Proof. destruct d; reflexivity. Qed.

(** Mirroring on one axis turns the step on that axis round and leaves the
    step on the other axis as it is. *)
Lemma mirror_steps (d : direction) :
  step_x (mirror_east_west d) = - step_x d
  /\ step_y (mirror_east_west d) = step_y d
  /\ step_x (mirror_north_south d) = step_x d
  /\ step_y (mirror_north_south d) = - step_y d.
Proof. destruct d; repeat split; reflexivity. Qed.

Lemma step_bounds (d : direction) :
  -1 <= step_x d <= 1 /\ -1 <= step_y d <= 1.
Proof. destruct d; simpl; lia. Qed.

(** Away from the ends of the [int16_t] range a step does not wrap. *)
Lemma move_no_wrap (p : position) (d : direction) :
  - 2 ^ 15 < px p < 2 ^ 15 - 1 ->
  - 2 ^ 15 < py p < 2 ^ 15 - 1 ->
  px (move p d) = px p + step_x d /\ py (move p d) = py p + step_y d.
Proof.
  intros Hx Hy. pose proof (step_bounds d) as [Hsx Hsy]. unfold move. simpl.
  rewrite !to_Coordinate_in_range by (machine_bounds; lia). auto.
Qed.

(** C6 (as amended).  For a monster with a spawn point whose position is
    within [range + 1] of it before the step: the drawn direction is mirrored
    east-west exactly when the candidate field is more than [range] away on
    the x axis and north-south exactly when it is more than [range] away on
    the y axis, and after the step (taken or not) the monster is again within
    [range + 1] of its spawn point; for a range of at least one, a monster
    that was within [range] stays within [range]. *)
Theorem wander_stays_near_spawn (K : Tuning) (s : SpawnPoint) (dir : direction)
    (stepped : bool) (monster : Monster) :
  getSpawn monster = Some s ->
  0 <= getRange s ->
  getRange s + 2 < 2 ^ 15 ->
  - 2 ^ 15 < px (pos (mchar monster)) < 2 ^ 15 - 1 ->
  - 2 ^ 15 < py (pos (mchar monster)) < 2 ^ 15 - 1 ->
  spawnDistance s (pos (mchar monster)) <= getRange s + 1 ->
  let p := pos (mchar monster) in
  let candidate := move p dir in
  let dir1 := if getRange s <? Z.abs (get_x s - px candidate)
              then mirror_east_west dir else dir in
  let dir2 := if getRange s <? Z.abs (get_y s - py candidate)
              then mirror_north_south dir1 else dir1 in
  let p' := pos (mchar (randomStep K dir stepped monster)) in
  wanderDirection (getSpawn monster) p dir = dir2
  /\ p' = (if stepped then move p dir2 else p)
  /\ spawnDistance s p' <= getRange s + 1
  /\ (1 <= getRange s ->
      spawnDistance s p <= getRange s -> spawnDistance s p' <= getRange s).
Proof.
  intros Hspawn Hr0 Hr Hx Hy Hdist p candidate dir1 dir2 p'.
  unfold spawnDistance in Hdist.
  subst p. set (p := pos (mchar monster)) in *.
  pose proof (step_bounds dir) as [Hsx Hsy].
  destruct (move_no_wrap p dir Hx Hy) as [Hcx Hcy]. fold candidate in Hcx, Hcy.
  destruct (move_no_wrap p dir2 Hx Hy) as [Hmx Hmy].
  change (2 ^ 15) with 32768 in Hr, Hx, Hy.
  assert (Hdir : wanderDirection (getSpawn monster) p dir = dir2).
  { rewrite Hspawn. unfold wanderDirection, xoffs, yoffs. fold candidate.
    rewrite !to_Coordinate_in_range by (machine_bounds; lia).
    reflexivity. }
  assert (Hp' : p' = if stepped then move p dir2 else p).
  { subst p'. unfold randomStep. simpl. fold p. rewrite Hdir. reflexivity. }
  split; [exact Hdir|]. split; [exact Hp'|].
  rewrite Hp'. clear Hp' p'.
  assert (Hx2 : step_x dir2
                = if getRange s <? Z.abs (get_x s - (px p + step_x dir))
                  then - step_x dir else step_x dir).
  { pose proof (mirror_steps dir) as (Hex & Hey & _).
    pose proof (mirror_steps dir1) as (_ & _ & Hnx & Hny).
    rewrite <- Hcx. subst dir2 dir1. repeat case_match; congruence. }
  assert (Hy2 : step_y dir2
                = if getRange s <? Z.abs (get_y s - (py p + step_y dir))
                  then - step_y dir else step_y dir).
  { pose proof (mirror_steps dir) as (Hex & Hey & _).
    pose proof (mirror_steps dir1) as (_ & _ & Hnx & Hny).
    rewrite <- Hcy. subst dir2 dir1. repeat case_match; congruence. }
  assert (Hgoal : forall q : position,
             px q = px p + step_x dir2 -> py q = py p + step_y dir2 ->
             spawnDistance s q <= getRange s + 1
             /\ (1 <= getRange s ->
                 spawnDistance s p <= getRange s -> spawnDistance s q <= getRange s)).
  { intros q Hqx Hqy. unfold spawnDistance. rewrite Hqx, Hqy, Hx2, Hy2.
    clear Hqx Hqy Hx2 Hy2 Hmx Hmy Hdir Hcx Hcy Hspawn.
    clearbody dir2 dir1 candidate p. clear dir2 dir1 candidate.
    destruct (Z.ltb_spec (getRange s) (Z.abs (get_x s - (px p + step_x dir))));
      destruct (Z.ltb_spec (getRange s) (Z.abs (get_y s - (py p + step_y dir))));
      destruct dir; cbn [step_x step_y] in *; split; lia. }
  destruct stepped.
  - apply Hgoal; assumption.
  - clear Hgoal Hx2 Hy2 Hmx Hmy Hdir Hcx Hcy Hspawn.
    clearbody dir2 dir1 candidate p. unfold spawnDistance. split; lia.
Qed.

(** The wander scenario of the specification: at the east border of a spawn
    area of range 5 a step drawn to the east is taken to the west. *)
Lemma wander_stays_near_spawn_witness :
  wanderDirection (Some sampleSpawn) {| px := 105; py := 100; pz := 0 |} dir_east
  = dir_west
  /\ pos (mchar (randomStep sampleTuning dir_east true (sampleMonster 11 105 100)))
     = {| px := 104; py := 100; pz := 0 |}
  /\ spawnDistance sampleSpawn
       (pos (mchar (randomStep sampleTuning dir_east true (sampleMonster 11 105 100))))
     <= 5.
Proof.
  destruct (wander_stays_near_spawn sampleTuning sampleSpawn dir_east true
              (sampleMonster 11 105 100) eq_refl
              ltac:(vm_compute; discriminate)
              ltac:(vm_compute; reflexivity)
              ltac:(vm_compute; split; reflexivity)
              ltac:(vm_compute; split; reflexivity)
              ltac:(vm_compute; discriminate))
    as (Hd & Hp & _ & Hin).
  split; [exact Hd|]. split; [rewrite Hp; reflexivity|].
  apply Hin; vm_compute; discriminate.
Defined.

Lemma wander_far_from_spawn :
  ~ wander_as_specified sampleTuning sampleSpawn dir_west (sampleMonster 12 200 100).
Proof.
  unfold wander_as_specified. intros H.
  destruct (H eq_refl) as [_ Hbound]. vm_compute in Hbound.
  apply Hbound. reflexivity.
Qed.

(** ** Targets in range *)

Lemma position_eqb_eq (p q : position) : position_eqb p q = true <-> p = q.
Proof.
  unfold position_eqb. destruct p as [x y z], q as [x' y' z']. simpl.
  rewrite !andb_true_iff, !Z.eqb_eq. split.
  - intros [[-> ->] ->]. reflexivity.
  - intros H. inversion H. auto.
Qed.

Lemma found_alive_in_range (population : list Character) (p : position)
    (range : Range) (c : Character) :
  In c (findAllAliveCharactersInRangeOf population p range)
  <-> In c population /\ alive c = true /\ isInRange p range (pos c) = true.
Proof.
  unfold findAllAliveCharactersInRangeOf. rewrite filter_In, andb_true_iff. tauto.
Qed.

Lemma target_membership (w : World) (p : position) (r : Z) (c : Character) :
  let range := {| radius := r; zRadius := 0 |} in
  In c (getTargetsInRange w p r)
  <-> (In c (map pchar (Players w))
       /\ alive c = true /\ isInRange p range (pos c) = true)
      \/ (In c (map mchar (Monsters w))
          /\ alive c = true /\ isInRange p range (pos c) = true
          /\ pos c <> p).
Proof.
  intros range. unfold getTargetsInRange. fold range.
  rewrite in_app_iff, filter_In, !found_alive_in_range, negb_true_iff.
  assert (Hne : position_eqb p (pos c) = false <-> pos c <> p).
  { rewrite <- not_true_iff_false, position_eqb_eq. split; intros H E; apply H; auto. }
  rewrite Hne. tauto.
Qed.

Lemma isInRange_metric (p : position) (range : Range) (q : position) :
  isInRange p range q = true
  <-> Z.max (Z.abs (px q - px p)) (Z.abs (py q - py p)) <= radius range.
Proof. unfold isInRange. apply Z.leb_le. Qed.

(** C7.  With "within range [r] of [p]" read as the specification measures
    it, the maximum of the distances in [x] and in [y] being at most [r]:
    [getTargetsInRange] returns the live players within range followed by
    the live monsters within range that do not stand on [p] itself, and
    nothing else; no dead character is among them. *)
Theorem getTargetsInRange_exact (w : World) (p : position) (r : Z) :
  let within (c : Character) :=
    Z.max (Z.abs (px (pos c) - px p)) (Z.abs (py (pos c) - py p)) <= r in
  getTargetsInRange w p r
  = List.filter (fun c => alive c && isInRange p {| radius := r; zRadius := 0 |} (pos c))
      (map pchar (Players w))
    ++ List.filter (fun c => negb (position_eqb p (pos c)))
         (List.filter
            (fun c => alive c && isInRange p {| radius := r; zRadius := 0 |} (pos c))
            (map mchar (Monsters w)))
  /\ (forall c,
        In c (getTargetsInRange w p r)
        <-> (In c (map pchar (Players w)) /\ alive c = true /\ within c)
            \/ (In c (map mchar (Monsters w))
                /\ alive c = true /\ within c /\ pos c <> p))
  /\ Forall (fun c => alive c = true) (getTargetsInRange w p r).
Proof.
  intros within.
  assert (Hin : forall c,
             In c (getTargetsInRange w p r)
             <-> (In c (map pchar (Players w)) /\ alive c = true /\ within c)
                 \/ (In c (map mchar (Monsters w))
                     /\ alive c = true /\ within c /\ pos c <> p)).
  { intros c. rewrite target_membership. cbv zeta.
    rewrite isInRange_metric. cbn [radius]. subst within. cbv beta. tauto. }
  split; [reflexivity|]. split; [exact Hin|].
  apply List.Forall_forall. intros c Hc. apply Hin in Hc. tauto.
Qed.

(** A player and a monster on the attacker's field: the player is returned,
    the monster is not; a dead monster next to it is not returned either. *)
Example targets_sample :
  let dead := {| id := 13; pos := {| px := 1; py := 0; pz := 0 |}; alive := false;
                 actionPoints := 0; fightPoints := 0; effects := 0%nat;
                 onRoute := false |} in
  let w := {| usedAP := 0; ap := 0;
              Players := [samplePlayer 1 0 0 0 0];
              Monsters := [sampleMonster 11 0 0; sampleMonster 12 1 1;
                           with_mchar dead (sampleMonster 13 1 0)];
              Npc := []; SpawnList := []; newMonsters := [] |} in
  map id (getTargetsInRange w {| px := 0; py := 0; pz := 0 |} 1) = [1; 12].
Proof. vm_compute. reflexivity. Qed.

(** ** Loading the spawn points *)

Lemma readRows_finished (C : Collaborators) (rows : list Row) (spawns : list SpawnPoint) :
  (readRows C rows spawns).2 = true
  <-> Forall (fun row => is_Some (readRow C row)) rows.
Proof.
  revert spawns. induction rows as [|row rest IH]; intros spawns; cbn [readRows].
  - split; [constructor | reflexivity].
  - destruct (readRow C row) as [newSpawn|] eqn:Hrow.
    + rewrite IH. split.
      * intros Hrest. constructor; [rewrite Hrow; eexists; reflexivity | exact Hrest].
      * intros Hall. inversion Hall. assumption.
    + cbn [snd]. split; [discriminate|].
      intros Hall. inversion Hall as [|? ? [x Hx] ?]. rewrite Hrow in Hx. discriminate Hx.
Qed.

Lemma readRows_length (C : Collaborators) (rows : list Row) (spawns : list SpawnPoint) :
  (readRows C rows spawns).2 = true ->
  length (readRows C rows spawns).1 = (length spawns + length rows)%nat.
Proof.
  revert spawns. induction rows as [|row rest IH]; intros spawns; cbn [readRows].
  - simpl. lia.
  - destruct (readRow C row) as [newSpawn|]; [|discriminate].
    intros Hfin. rewrite (IH _ Hfin). rewrite length_app. simpl. lia.
Qed.

(** C9 (as amended).  [initRespawns] returns true exactly when the query
    does not throw, yields at least one row, and every row is read and
    loaded without an exception; then the spawn list holds one spawn point
    per row.  A query with no rows gives the same result as a query that
    throws: false, with an empty spawn list. *)
Theorem initRespawns_true_iff (C : Collaborators) (results : option (list Row))
    (w : World) :
  ((initRespawns C results w).2 = true
   <-> exists rows,
         results = Some rows /\ rows <> []
         /\ Forall (fun row => is_Some (readRow C row)) rows)
  /\ (forall rows,
        results = Some rows -> (initRespawns C results w).2 = true ->
        length (SpawnList (initRespawns C results w).1) = length rows)
  /\ initRespawns C (Some []) w = initRespawns C None w
  /\ (initRespawns C None w).2 = false
  /\ SpawnList (initRespawns C None w).1 = [].
Proof.
  split; [|split; [|repeat split]].
  - unfold initRespawns. destruct results as [[|row rest]|].
    + split; [discriminate|]. intros (rows & E & Hne & _). inversion E. congruence.
    + pose proof (readRows_finished C (row :: rest) []) as Hfin.
      destruct (readRows C (row :: rest) []) as [spawns finished].
      cbn [snd] in *. rewrite Hfin. split.
      * intros Hall. exists (row :: rest). repeat split; [discriminate | exact Hall].
      * intros (rows & Erows & _ & Hall). inversion Erows. subst. exact Hall.
    + split; [discriminate|]. intros (rows & E & _). discriminate E.
  - intros rows -> Htrue. unfold initRespawns in *. destruct rows as [|row rest].
    + discriminate Htrue.
    + pose proof (readRows_length C (row :: rest) []) as Hlen.
      destruct (readRows C (row :: rest) []) as [spawns finished].
      cbn [fst snd SpawnList set_SpawnList length] in *. apply Hlen. exact Htrue.
Qed.

(** One good row loads; a row whose spawn range cannot be read as an
    unsigned number makes the whole call fail although the query itself
    went through and returned rows. *)
Example initRespawns_samples :
  (initRespawns plainCollaborators (Some [sampleRow]) emptyWorld).2 = true
  /\ (initRespawns plainCollaborators (Some [sampleRow; badRow]) emptyWorld).2 = false
  /\ (initRespawns plainCollaborators (Some []) emptyWorld).2 = false
  /\ (initRespawns plainCollaborators None emptyWorld).2 = false.
Proof. vm_compute. repeat split. Qed.

Lemma initRespawns_bad_row :
  ~ initRespawns_as_specified plainCollaborators (Some [sampleRow; badRow]) emptyWorld.
Proof.
  unfold initRespawns_as_specified. intros [_ Hback].
  assert (Htrue : (initRespawns plainCollaborators (Some [sampleRow; badRow])
                     emptyWorld).2 = true).
  { apply Hback. exists [sampleRow; badRow]. split; [reflexivity | discriminate]. }
  vm_compute in Htrue. discriminate Htrue.
Qed.

(** ** The anchor of the in-game day task *)

(** What the code computes: the next multiple of the day length counted
    from the birth time, as an offset from the birth time. *)
Lemma nextIGDay_unixtime_value (K : Tuning) (t tm_isdst : Z) :
  let day := realSecondsInIllarionDay K in
  let t' := if tm_isdst =? 0 then t else t + 3600 in
  nextIGDay_unixtime K t tm_isdst
  = (Z.quot (t' - illarionBirthTime K) day + 1) * day.
Proof.
  intros day t'. unfold nextIGDay_unixtime. fold day.
  change secondsInHour with 3600. fold t'.
  pose proof (Z.quot_rem' (t' - illarionBirthTime K) day) as Hqr.
  set (q := Z.quot (t' - illarionBirthTime K) day) in *.
  set (m := Z.rem (t' - illarionBirthTime K) day) in *.
  lia.
Qed.

(** From the birth time on, the code's value is the specification's
    boundary with the birth time left out. *)
Lemma nextIGDay_misses_birth_time (K : Tuning) (t : Z) (dst : bool) :
  0 < illarionTimeFactor K <= 86400 ->
  illarionBirthTime K <= t ->
  nextIGDay_unixtime K t (if dst then 1 else 0) + illarionBirthTime K
  = nextIGDay_spec K t dst.
Proof.
  intros Hf Ht. rewrite nextIGDay_unixtime_value. cbv zeta.
  unfold nextIGDay_spec, realSecondsInIllarionDay.
  change (secondsInHour * 24) with 86400.
  rewrite (quot_is_floor 86400 (illarionTimeFactor K)) by lia.
  assert (Hday : 0 < 86400 / illarionTimeFactor K)
    by (apply Z.div_str_pos; lia).
  destruct dst; [change (1 =? 0) with false | change (0 =? 0) with true];
    cbv iota; rewrite quot_is_floor by lia; reflexivity.
Qed.

(** C2.  With three in-game days to a real day and the birth time at
    950742000, at Unix time 1000000000 without daylight saving the code
    hands 49276800 to [from_time_t], where the specification's boundary is
    1000018800: the birth time that was subtracted is never added back. *)
Theorem nextIGDay_omits_birth_time :
  nextIGDay_unixtime sampleTuning 1000000000 0 = 49276800
  /\ nextIGDay_spec sampleTuning 1000000000 false = 1000018800
  /\ getNextIGDayTime sampleTuning 1000000000 0 0 (1000000000 * 1000000000)
     = (49276800 - 1000000000) * 1000000000.
Proof. vm_compute. repeat split. Qed.

(** The day-anchor scenario of the specification, which has the birth time
    at zero: there the two agree. *)
Example nextIGDay_scenario :
  let K := {| MIN_AP_UPDATE := 100; CLIENT_TIMEOUT := 50; PLAYER_SAVE_INTERVAL := 600;
              MAX_ACT_RANGE := 60; NP_WALK_COST := 5; MAX_AP := 21; MAX_FP := 21;
              illarionTimeFactor := 3; illarionBirthTime := 0 |} in
  nextIGDay_unixtime K 30000 0 = 57600 /\ nextIGDay_spec K 30000 false = 57600.
Proof. vm_compute. split; reflexivity. Qed.

(** ** Command dispatch *)

Lemma append_cons (c : ascii) (s t : string) :
  (String c s +:+ t)%string = String c (s +:+ t).
Proof. reflexivity. Qed.

Lemma append_empty_r (s : string) : (s +:+ "")%string = s.
Proof.
  induction s as [|c s IH]; [reflexivity | rewrite append_cons, IH; reflexivity].
Qed.

Lemma length_append (s t : string) :
  String.length (s +:+ t) = (String.length s + String.length t)%nat.
Proof.
  induction s as [|c s IH]; [reflexivity|].
  rewrite append_cons. simpl. rewrite IH. reflexivity.
Qed.

Lemma substring_prefix (s t : string) :
  String.substring 0 (String.length s) (s +:+ t) = s.
Proof.
  induction s as [|c s IH].
  - destruct t; reflexivity.
  - rewrite append_cons. simpl. rewrite IH. reflexivity.
Qed.

Lemma chars_append (s t : string) :
  list_ascii_of_string (s +:+ t) = list_ascii_of_string s ++ list_ascii_of_string t.
Proof.
  induction s as [|c s IH]; [reflexivity|].
  rewrite append_cons. simpl. rewrite IH. reflexivity.
Qed.

(** What a group has consumed when the matcher stands before [t]. *)
Lemma consumed_prefix (s t : string) : consumed (s +:+ t) t = s.
Proof.
  unfold consumed. rewrite length_append.
  replace (String.length s + String.length t - String.length t)%nat
    with (String.length s) by lia.
  apply substring_prefix.
Qed.

Lemma consumed_all (s : string) : consumed s "" = s.
Proof.
  pose proof (consumed_prefix s "") as H. rewrite append_empty_r in H. exact H.
Qed.

(** *** The matcher, one construct at a time *)

Section Matcher.

Context (whole : string) (caps : captures)
        (k : string -> captures -> option captures).

Lemma bt_seq (r1 r2 : regex) (s : string) :
  bt whole (RSeq r1 r2) s caps k
  = bt whole r1 s caps (fun s' caps' => bt whole r2 s' caps' k).
Proof. reflexivity. Qed.

Lemma bt_opt (r : regex) (s : string) :
  bt whole (ROpt r) s caps k
  = match bt whole r s caps k with Some res => Some res | None => k s caps end.
Proof. reflexivity. Qed.

Lemma bt_group (n : nat) (r : regex) (s : string) :
  bt whole (RGroup n r) s caps k
  = bt whole r s caps (fun s' caps' => k s' ((n, consumed s s') :: caps')).
Proof. reflexivity. Qed.

Lemma bt_class_cons (cl : cclass) (c : ascii) (s : string) :
  bt whole (RClass cl) (String c s) caps k
  = if cmatch cl c then k s caps else None.
Proof. reflexivity. Qed.

Lemma bt_plus_cons (cl : cclass) (c : ascii) (s : string) :
  bt whole (RPlus cl) (String c s) caps k
  = if cmatch cl c then star_bt cl s (fun s' => k s' caps) else None.
Proof. reflexivity. Qed.

Lemma bt_star (cl : cclass) (s : string) :
  bt whole (RStar cl) s caps k = star_bt cl s (fun s' => k s' caps).
Proof. reflexivity. Qed.

End Matcher.

(** The repetition is greedy: when every character of [s] is in the class,
    the next character is not, and the continuation succeeds right after
    [s], that is the match taken. *)
Lemma star_bt_greedy {A : Type} (cl : cclass) (s t : string)
    (k : string -> option A) (r : A) :
  forallb (cmatch cl) (list_ascii_of_string s) = true ->
  match t with String c _ => cmatch cl c = false | EmptyString => True end ->
  k t = Some r ->
  star_bt cl (s +:+ t) k = Some r.
Proof.
  intros Hs Ht Hk. induction s as [|c s IH].
  - destruct t as [|c t']; simpl; [exact Hk|]. rewrite Ht. exact Hk.
  - rewrite append_cons. simpl in *. apply andb_true_iff in Hs as [Hc Hs].
    rewrite Hc, (IH Hs). reflexivity.
Qed.

(** No split of the input lets the continuation succeed: the repetition
    fails. *)
Lemma star_bt_none {A : Type} (cl : cclass) (s : string) (k : string -> option A) :
  (forall s1 s2, s = (s1 +:+ s2)%string ->
                 forallb (cmatch cl) (list_ascii_of_string s1) = true ->
                 k s2 = None) ->
  star_bt cl s k = None.
Proof.
  induction s as [|c s IH]; intros Hk; simpl.
  - apply (Hk ""%string ""%string); reflexivity.
  - destruct (cmatch cl c) eqn:Hc.
    + rewrite IH.
      * apply (Hk ""%string (String c s)); reflexivity.
      * intros s1 s2 -> Hs1. apply (Hk (String c s1) s2); [reflexivity|].
        simpl. rewrite Hc. exact Hs1.
    + apply (Hk ""%string (String c s)); reflexivity.
Qed.

(** What is left after a run of characters that are no line terminators
    still holds the line terminator of the whole. *)
Lemma terminator_remains (s1 s2 : string) :
  existsb is_line_terminator (list_ascii_of_string (s1 +:+ s2)) = true ->
  forallb (cmatch CDot) (list_ascii_of_string s1) = true ->
  existsb is_line_terminator (list_ascii_of_string s2) = true.
Proof.
  induction s1 as [|c s1 IH]; [intros H _; exact H|].
  rewrite append_cons. simpl. intros H Hall.
  apply andb_true_iff in Hall as [Hc Hall]. apply negb_true_iff in Hc.
  rewrite Hc in H. simpl in H. auto.
Qed.

Lemma dot_star_fails (whole s : string) (caps : captures) :
  existsb is_line_terminator (list_ascii_of_string s) = true ->
  bt whole (RSeq (ROpt (RGroup 2 (RStar CDot))) REol) s caps atEnd = None.
Proof.
  intros Hs. rewrite bt_seq, bt_opt, bt_group, bt_star.
  rewrite star_bt_none.
  - destruct s; [discriminate Hs | reflexivity].
  - intros s1 s2 -> Hs1.
    pose proof (terminator_remains s1 s2 Hs Hs1) as H2.
    destruct s2; [discriminate H2 | reflexivity].
Qed.

Lemma dot_star_succeeds (whole s : string) (caps : captures) :
  noLineTerminator s ->
  bt whole (RSeq (ROpt (RGroup 2 (RStar CDot))) REol) s caps atEnd
  = Some ((2%nat, s) :: caps).
Proof.
  intros Hs. rewrite bt_seq, bt_opt, bt_group, bt_star.
  rewrite <- (append_empty_r s) at 1.
  rewrite (star_bt_greedy CDot s "" _ ((2%nat, s) :: caps)); [reflexivity | | | ].
  - exact Hs.
  - exact I.
  - cbn [bt atEnd]. rewrite consumed_all. reflexivity.
Qed.

(** The end of the pattern fails on whatever holds a line terminator. *)
Lemma patternTail_fails (whole s : string) (caps : captures) :
  existsb is_line_terminator (list_ascii_of_string s) = true ->
  bt whole patternTail s caps atEnd = None.
Proof.
  intros Hs. unfold patternTail. rewrite bt_seq, bt_opt.
  rewrite (dot_star_fails whole s caps Hs).
  destruct s as [|c s]; [reflexivity|].
  rewrite bt_class_cons. destruct (cmatch (CChar " ") c) eqn:Hc; [|reflexivity].
  rewrite dot_star_fails; [reflexivity|].
  simpl in Hc. apply Ascii.eqb_eq in Hc. subst c. exact Hs.
Qed.

(** The end of the pattern on nothing, or on a space and an argument. *)
Lemma patternTail_succeeds (whole tail : string) (caps : captures) :
  let arg := match tail with String _ t => t | EmptyString => EmptyString end in
  match tail with String c _ => c = " "%char | EmptyString => True end ->
  noLineTerminator arg ->
  bt whole patternTail tail caps atEnd = Some ((2%nat, arg) :: caps).
Proof.
  intros arg Htail Harg. unfold patternTail. rewrite bt_seq, bt_opt.
  destruct tail as [|c t].
  - cbn [bt]. cbv beta. change (atEnd "" ((2%nat, consumed "" "") :: caps))
      with (Some ((2%nat, ""%string) :: caps)). reflexivity.
  - subst c. rewrite bt_class_cons. cbn [cmatch].
    change ((" " =? " ")%char) with true. cbv iota.
    rewrite dot_star_succeeds by exact Harg. reflexivity.
Qed.

Lemma bt_bol_start (whole : string) (caps : captures)
    (k : string -> captures -> option captures) :
  bt whole RBol whole caps k = k whole caps.
Proof. cbn [bt]. rewrite Nat.eqb_refl. reflexivity. Qed.

(** *** Reading a command without the pattern *)

Lemma splitAtSpace_spec (s : string) :
  s = ((splitAtSpace s).1 +:+ (splitAtSpace s).2)%string
  /\ noSpace (splitAtSpace s).1
  /\ match (splitAtSpace s).2 with
     | String c _ => c = " "%char
     | EmptyString => True
     end.
Proof.
  induction s as [|c s (IH1 & IH2 & IH3)]; simpl.
  - repeat split.
  - destruct (Ascii.eqb_spec c " ") as [->|Hc].
    + repeat split.
    + destruct (splitAtSpace s) as [name tail]. simpl in *.
      split; [rewrite append_cons; congruence|]. split; [|exact IH3].
      unfold noSpace in *. simpl. rewrite IH2.
      apply Ascii.eqb_neq in Hc. rewrite Hc. reflexivity.
Qed.

Lemma splitAtSpace_name (n a : string) :
  noSpace n -> splitAtSpace (n +:+ String " " a) = (n, String " " a).
Proof.
  unfold noSpace. induction n as [|c n IH]; intros Hn.
  - reflexivity.
  - rewrite append_cons. simpl in *. apply andb_true_iff in Hn as [Hc Hn].
    apply negb_true_iff in Hc. rewrite Hc, (IH Hn). reflexivity.
Qed.

(** A run without a space that starts the input ends before the first
    space. *)
Lemma split_before_space (name arg s1 s2 : string) :
  (name +:+ String " " arg)%string = (s1 +:+ s2)%string ->
  forallb (cmatch (CNotChar " ")) (list_ascii_of_string s1) = true ->
  exists u, s2 = (u +:+ String " " arg)%string.
Proof.
  revert name. induction s1 as [|d s1 IH]; intros name Heq Hs1.
  - exists name. symmetry. exact Heq.
  - simpl in Hs1. apply andb_true_iff in Hs1 as [Hd Hs1].
    destruct name as [|e name]; rewrite ?append_cons in Heq.
    + injection Heq as <- _. discriminate Hd.
    + injection Heq as _ Heq. exact (IH name Heq Hs1).
Qed.

Lemma some_terminator (l : list ascii) :
  forallb (fun c => negb (is_line_terminator c)) l = false ->
  existsb is_line_terminator l = true.
Proof.
  induction l as [|c l IH]; simpl; [discriminate|].
  destruct (is_line_terminator c); simpl; auto.
Qed.

(** The pattern extracts what reading the command by hand extracts, and
    fails where that fails. *)
Lemma regex_match_parse (input : string) :
  regex_match pattern input
  = match parseCommand input with
    | Some (name, arg) => Some [(2%nat, arg); (1%nat, name)]
    | None => None
    end.
Proof.
  unfold regex_match, pattern. rewrite bt_seq, bt_bol_start, bt_seq.
  destruct input as [|c rest]; [reflexivity|].
  rewrite bt_class_cons. unfold parseCommand. cbn [cmatch].
  destruct (Ascii.eqb c "!"); [|reflexivity].
  rewrite bt_seq, bt_group.
  pose proof (splitAtSpace_spec rest) as (Hrest & Hname & Htail).
  destruct (splitAtSpace rest) as [name tail]. cbn [fst snd] in *.
  destruct name as [|d name].
  - simpl in Hrest. subst rest.
    destruct tail as [|e t]; [reflexivity|]. subst e. reflexivity.
  - subst rest. rewrite append_cons, bt_plus_cons.
    unfold noSpace in Hname. simpl in Hname.
    apply andb_true_iff in Hname as [Hd Hname]. cbn [cmatch]. rewrite Hd.
    set (arg := match tail with String _ t => t | EmptyString => EmptyString end).
    destruct (forallb (fun c => negb (is_line_terminator c)) (list_ascii_of_string arg))
      eqn:Harg; cbv iota.
    + apply star_bt_greedy.
      * exact Hname.
      * destruct tail as [|e t]; [exact I|]. subst e. reflexivity.
      * rewrite (patternTail_succeeds _ tail _ Htail Harg).
        change (String d (name +:+ tail)) with (String d name +:+ tail)%string.
        rewrite consumed_prefix. reflexivity.
    + apply star_bt_none. intros s1 s2 Hsplit Hs1.
      destruct tail as [|e t]; [discriminate Harg|]. subst e. subst arg.
      destruct (split_before_space name t s1 s2 Hsplit Hs1) as [u ->].
      apply patternTail_fails.
      rewrite chars_append, existsb_app. simpl.
      rewrite (some_terminator _ Harg). rewrite orb_true_r. reflexivity.
Qed.

Lemma parseCommand_round_trip (n a : string) :
  n <> ""%string -> noSpace n -> noLineTerminator a ->
  parseCommand ("!" +:+ n +:+ " " +:+ a) = Some (n, a).
Proof.
  intros Hn Hsp Hlt.
  change ("!" +:+ n +:+ " " +:+ a)%string with (String "!" (n +:+ String " " a)).
  unfold parseCommand. change (("!" =? "!")%char) with true. cbv iota.
  rewrite (splitAtSpace_name n a Hsp).
  destruct n as [|c n]; [congruence|].
  unfold noLineTerminator in Hlt. rewrite Hlt. reflexivity.
Qed.

(** [executeUserCommand] is the lookup of the name read by hand. *)
Lemma executeUserCommand_parse {U H : Type} (user : U) (input : string)
    (commands : gmap string H) :
  executeUserCommand user input commands
  = match parseCommand input with
    | Some (name, arg) =>
        match commands !! name with
        | Some handler => (true, Some (handler, user, arg))
        | None => (false, None)
        end
    | None => (false, None)
    end.
Proof.
  unfold executeUserCommand. rewrite regex_match_parse.
  destruct (parseCommand input) as [[name arg]|]; reflexivity.
Qed.

(** C8 (as amended).  For a name of the command map that is not empty and
    holds no space, and an argument that holds no line feed and no carriage
    return, the input made of an exclamation mark, the name, a space and the
    argument calls the handler of that name with the argument and returns
    true.  An input that does not match the pattern, or whose first group is
    not a name of the map, calls no handler and returns false. *)
Theorem command_round_trip {U H : Type} (user : U) (commands : gmap string H)
    (n a : string) (handler : H) :
  commands !! n = Some handler ->
  n <> ""%string ->
  noSpace n ->
  noLineTerminator a ->
  executeUserCommand user ("!" +:+ n +:+ " " +:+ a) commands
  = (true, Some (handler, user, a))
  /\ (forall input,
        (forall caps, regex_match pattern input = Some caps ->
                      commands !! capture_str 1 caps = None) ->
        executeUserCommand user input commands = (false, None)).
Proof.
  intros Hcmd Hn Hsp Hlt. split.
  - rewrite executeUserCommand_parse, parseCommand_round_trip by assumption.
    rewrite Hcmd. reflexivity.
  - intros input Hnone. unfold executeUserCommand.
    destruct (regex_match pattern input) as [caps|]; [|reflexivity].
    rewrite (Hnone caps eq_refl). reflexivity.
Qed.

Lemma command_round_trip_witness :
  executeUserCommand tt "!say hello world" sampleCommands
  = (true, Some (1%nat, tt, "hello world"%string)).
Proof.
  exact (proj1 (command_round_trip tt sampleCommands "say" "hello world" 1%nat
                  eq_refl ltac:(discriminate) eq_refl eq_refl)).
Defined.

(** The pattern on other inputs: an argument of two lines, no argument, a
    second space, an unknown name, no exclamation mark, no name. *)
Example command_samples :
  executeUserCommand tt ("!say " +:+ twoLines) sampleCommands = (false, None)
  /\ executeUserCommand tt "!say" sampleCommands = (true, Some (1%nat, tt, ""%string))
  /\ executeUserCommand tt "!say  hi" sampleCommands
     = (true, Some (1%nat, tt, " hi"%string))
  /\ executeUserCommand tt "!sing a song" sampleCommands = (false, None)
  /\ executeUserCommand tt "say hello" sampleCommands = (false, None)
  /\ executeUserCommand tt "! say" sampleCommands = (false, None)
  /\ executeUserCommand tt "!" sampleCommands = (false, None).
Proof. vm_compute. repeat split. Qed.

Lemma command_with_line_feed :
  ~ commandRoundTrip_as_specified tt sampleCommands "say" twoLines 1%nat.
Proof.
  unfold commandRoundTrip_as_specified. intros H.
  specialize (H eq_refl eq_refl). vm_compute in H. discriminate H.
Qed.

(* ===================================================================== *)
(** * Further properties of the code *)
(* ===================================================================== *)

(** ** Lists of calls *)

Lemma flat_map_over_concat {A B D : Type} (g : B -> list D) (f : A -> list B)
    (l : list A) :
  flat_map g (List.concat (map f l)) = flat_map (fun x => flat_map g (f x)) l.
Proof.
  induction l as [|x l IH]; simpl.
  - reflexivity.
  - rewrite flat_map_app, IH. reflexivity.
Qed.

Lemma flat_map_if {A B : Type} (c : A -> bool) (f : A -> B) (l : list A) :
  flat_map (fun x => if c x then [f x] else []) l = map f (List.filter c l).
Proof.
  induction l as [|x l IH]; simpl.
  - reflexivity.
  - destruct (c x); simpl; rewrite IH; reflexivity.
Qed.

Lemma flat_map_ext_all {A B : Type} (f g : A -> list B) (l : list A) :
  (forall x, f x = g x) -> flat_map f l = flat_map g l.
Proof.
  intros H. induction l as [|x l IH]; simpl.
  - reflexivity.
  - rewrite H, IH. reflexivity.
Qed.

Lemma flat_map_none {A B : Type} (f : A -> list B) (l : list A) :
  (forall x, f x = []) -> flat_map f l = [].
Proof.
  intros H. induction l as [|x l IH]; simpl.
  - reflexivity.
  - rewrite H, IH. reflexivity.
Qed.

(** ** The tick driver, call after call *)

Section Driver.

Context (K : Tuning) (C : Collaborators).

(** X1.  One call of [turntheworld] brings [usedAP] up to the number of
    whole [MIN_AP_UPDATE] intervals elapsed, and never takes it down: with
    the difference in the range of [int], [usedAP] afterwards is the larger
    of its old value and the quotient.  A second call at the same reading of
    the clock finds nothing to distribute: it runs no pass, makes no call
    and leaves everything but the field [ap] as it is. *)
Theorem turntheworld_catches_up (i : TickInput) (w : World) :
  0 < MIN_AP_UPDATE K ->
  0 <= elapsed i ->
  in_int (elapsed i / MIN_AP_UPDATE K - usedAP w) ->
  let w1 := (turntheworld K C i w).1 in
  usedAP w1 = Z.max (usedAP w) (elapsed i / MIN_AP_UPDATE K)
  /\ turntheworld K C i w1
     = (set_ap (Z.min 0 (elapsed i / MIN_AP_UPDATE K - usedAP w)) w1, []).
Proof.
  intros Hm He Hfit w1.
  assert (Hu : usedAP w1 = Z.max (usedAP w) (elapsed i / MIN_AP_UPDATE K)).
  { subst w1. rewrite turntheworld_unfold. cbv zeta.
    rewrite quot_is_floor by assumption.
    rewrite to_int_in_range by assumption.
    destruct (0 <? _) eqn:Ha.
    - rewrite threePasses_usedAP. simpl. apply Z.ltb_lt in Ha. lia.
    - simpl. apply Z.ltb_ge in Ha. lia. }
  split; [exact Hu|].
  rewrite (turntheworld_unfold K C i w1). cbv zeta.
  rewrite quot_is_floor by assumption.
  assert (Hd : elapsed i / MIN_AP_UPDATE K - usedAP w1
               = Z.min 0 (elapsed i / MIN_AP_UPDATE K - usedAP w))
    by (rewrite Hu; lia).
  rewrite Hd.
  rewrite to_int_in_range by (unfold in_int in *; machine_bounds; lia).
  assert (Hle : (0 <? Z.min 0 (elapsed i / MIN_AP_UPDATE K - usedAP w)) = false)
    by (apply Z.ltb_ge; lia).
  rewrite Hle. reflexivity.
Qed.

(** X2.  Whatever the inputs of a run of calls, the passes are entered in
    whole rounds of players, monsters, NPCs: the passes entered over the
    run are some number of such rounds, at most one for each call. *)
Theorem run_enters_whole_rounds (inputs : list TickInput) (w : World) :
  exists n : nat,
    (n <= length inputs)%nat
    /\ entered (run K C inputs w).2
       = List.concat (repeat [PassPlayers; PassMonsters; PassNPC] n).
Proof.
  revert w. induction inputs as [|i rest IH]; intros w.
  - exists 0%nat. split; [simpl; lia | reflexivity].
  - cbn [run].
    assert (Hstep : entered (turntheworld K C i w).2 = [PassPlayers; PassMonsters; PassNPC]
                    \/ entered (turntheworld K C i w).2 = []).
    { rewrite turntheworld_unfold. cbv zeta. destruct (0 <? _).
      - left. apply threePasses_entered.
      - right. reflexivity. }
    destruct (turntheworld K C i w) as [w1 evs1].
    destruct (IH w1) as (n & Hn & Hrest).
    destruct (run K C rest w1) as [w2 evs2].
    cbn [snd] in *. rewrite entered_app, Hrest.
    destruct Hstep as [Hs|Hs]; rewrite Hs.
    + exists (S n). split; [simpl; lia | reflexivity].
    + exists n. split; [simpl; lia | reflexivity].
Qed.

End Driver.

Lemma turntheworld_catches_up_witness :
  let w1 := (turntheworld sampleTuning plainCollaborators (sampleInput 250) quietWorld).1 in
  usedAP w1 = 2
  /\ (turntheworld sampleTuning plainCollaborators (sampleInput 250) w1).2 = [].
Proof.
  destruct (turntheworld_catches_up sampleTuning plainCollaborators (sampleInput 250)
              quietWorld
              ltac:(vm_compute; reflexivity)
              ltac:(vm_compute; discriminate)
              ltac:(vm_compute; split; [discriminate | reflexivity]))
    as [Hu Hs].
  split; [exact Hu | rewrite Hs; reflexivity].
Defined.

(** Two calls, a quarter of a second and a second after the start. *)
Lemma usedAP_run_witness :
  0 <= usedAP (run sampleTuning plainCollaborators
                 [sampleInput 250; sampleInput 1000] quietWorld).1 <= 10.
Proof.
  apply (usedAP_run sampleTuning plainCollaborators
           [sampleInput 250; sampleInput 1000] ltac:(vm_compute; reflexivity)
           0 quietWorld).
  - lia.
  - vm_compute. discriminate.
  - simpl. lia.
Defined.
(** ** Who is credited in a pass *)

Section Accounts.

Context (K : Tuning) (C : Collaborators).

Lemma visitPlayer_calls now a saved player :
  let acts := (visitPlayer K C now a saved player).2 in
  let i := playerId player in
  apCredits acts = (if online player && inWindow K now player then [(i, a)] else [])
  /\ fpCredits acts = (if online player && inWindow K now player then [(i, a)] else [])
  /\ shutdowns acts
     = (if online player && negb (inWindow K now player) then [i] else [])
  /\ logouts acts = (if negb (online player) then [i] else [])
  /\ (visitPlayer K C now a saved player).1.2 = (if negb (online player) then [i] else []).
Proof.
  unfold visitPlayer, inWindow, playerId.
  destruct (online player); cbn [andb negb].
  - destruct ((0 <=? now - lastkeepalive player)
              && (now - lastkeepalive player <=? CLIENT_TIMEOUT K)); cbn [negb].
    + destruct (negb saved && _); repeat split; reflexivity.
    + repeat split; reflexivity.
  - repeat split; reflexivity.
Qed.

Lemma forEachPlayer_calls now a players : forall saved,
  let r := forEachPlayer K C now a saved players in
  apCredits r.2
  = map (fun p => (playerId p, a))
        (List.filter (fun p => online p && inWindow K now p) players)
  /\ fpCredits r.2
     = map (fun p => (playerId p, a))
           (List.filter (fun p => online p && inWindow K now p) players)
  /\ shutdowns r.2
     = map playerId (List.filter (fun p => online p && negb (inWindow K now p)) players)
  /\ logouts r.2 = map playerId (List.filter (fun p => negb (online p)) players)
  /\ r.1.2 = map playerId (List.filter (fun p => negb (online p)) players).
Proof.
  induction players as [|player rest IH]; intros saved; cbn [forEachPlayer].
  - repeat split; reflexivity.
  - pose proof (visitPlayer_calls now a saved player) as Hv. cbv zeta in Hv.
    destruct (visitPlayer K C now a saved player) as [[[p' s1] l1] a1].
    specialize (IH s1). cbv zeta in IH.
    destruct (forEachPlayer K C now a s1 rest) as [[[r' s2] l2] a2].
    cbn [fst snd] in *.
    destruct Hv as (Hv1 & Hv2 & Hv3 & Hv4 & Hv5).
    destruct IH as (IH1 & IH2 & IH3 & IH4 & IH5).
    unfold apCredits, fpCredits, shutdowns, logouts in *.
    rewrite !flat_map_app, Hv1, Hv2, Hv3, Hv4, Hv5, IH1, IH2, IH3, IH4, IH5.
    cbn [List.filter].
    destruct (online player); cbn [andb negb];
      destruct (inWindow K now player); cbn [negb]; repeat split; reflexivity.
Qed.

(** X4.  The accounts of the player pass.  Both reservoirs of exactly the
    players that are online with a keepalive inside the window are credited
    [ap], once each and in the order of the container; the connections of
    exactly the online players outside the window are shut down; exactly
    the offline players are logged out. *)
Theorem checkPlayers_accounts (now : Z) (w : World) :
  let acts := (checkPlayers K C now w).2 in
  let served := List.filter (fun p => online p && inWindow K now p) (Players w) in
  apCredits acts = map (fun p => (playerId p, ap w)) served
  /\ fpCredits acts = map (fun p => (playerId p, ap w)) served
  /\ shutdowns acts
     = map playerId
         (List.filter (fun p => online p && negb (inWindow K now p)) (Players w))
  /\ logouts acts = map playerId (List.filter (fun p => negb (online p)) (Players w)).
Proof.
  cbv zeta. unfold checkPlayers.
  pose proof (forEachPlayer_calls now (ap w) (Players w) false) as H. cbv zeta in H.
  destruct (forEachPlayer K C now (ap w) false (Players w)) as [[[visited saved] lost] acts].
  cbn [fst snd] in *. destruct H as (H1 & H2 & H3 & H4 & _).
  unfold apCredits, fpCredits, shutdowns, logouts in *.
  cbn [flat_map apCredit fpCredit]. rewrite !app_nil_l, !flat_map_app.
  rewrite H1, H2, H3, H4.
  destruct lost; simpl; rewrite ?app_nil_r; repeat split; reflexivity.
Qed.

Lemma visitMonster_calls players a monster :
  let acts := (visitMonster K C players a monster).2 in
  apCredits acts = (if alive (mchar monster) then [(monsterId monster, a)] else [])
  /\ fpCredits acts = (if alive (mchar monster) then [(monsterId monster, a)] else [])
  /\ (visitMonster K C players a monster).1.2
     = (if negb (alive (mchar monster)) then [monsterId monster] else []).
Proof.
  unfold visitMonster, monsterId.
  destruct (alive (mchar monster)); cbn [negb].
  - destruct (canAct C _); [destruct (negb _ && negb _)|]; repeat split; reflexivity.
  - repeat split; reflexivity.
Qed.

Lemma forEachMonster_dead players a monsters :
  (forEachMonster K C players a monsters).1.2
  = map monsterId (List.filter (fun m => negb (alive (mchar m))) monsters).
Proof.
  unfold forEachMonster. cbn [fst snd].
  rewrite <- flat_map_if.
  rewrite (map_map (visitMonster K C players a) (fun v => v.1.2)).
  rewrite <- List.flat_map_concat_map. apply flat_map_ext_all. intros m.
  apply (visitMonster_calls players a m).
Qed.

Lemma Monsters_spawnCheck ie se w :
  Monsters (throttle (spawnCheck C ie se w)) = Monsters w
  /\ ap (throttle (spawnCheck C ie se w)) = throttled (ap w)
  /\ Players (throttle (spawnCheck C ie se w)) = Players w
  /\ newMonsters (throttle (spawnCheck C ie se w)) = newMonsters (spawnCheck C ie se w).
Proof.
  unfold throttle, spawnCheck, throttled.
  destruct (ie && se); [destruct (spawnAll C (SpawnList w))|];
    simpl; destruct (1 <? ap w); repeat split; reflexivity.
Qed.


Lemma flat_map_map_none {A B D : Type} (g : B -> list D) (f : A -> B) (l : list A) :
  (forall x, g (f x) = []) -> flat_map g (map f l) = [].
Proof.
  intros H. induction l as [|x l IH]; simpl.
  - reflexivity.
  - rewrite H, IH. reflexivity.
Qed.

Lemma flat_map_map_one {A B D : Type} (g : B -> list D) (f : A -> B) (h : A -> D)
    (l : list A) :
  (forall x, g (f x) = [h x]) -> flat_map g (map f l) = map h l.
Proof.
  intros H. induction l as [|x l IH]; simpl.
  - reflexivity.
  - rewrite H, IH. reflexivity.
Qed.

Lemma visitMonster_quiet players a monster :
  kills (visitMonster K C players a monster).2 = []
  /\ appearances (visitMonster K C players a monster).2 = [].
Proof. unfold visitMonster. repeat case_match; split; reflexivity. Qed.

(** In the model, where the turn of a monster acts on that monster only,
    the monsters credited are those alive in the container as the pass
    finds it, and the dead ones of it are killed. *)
Lemma checkMonsters_handled (ie se : bool) (w : World) :
  let acts := (checkMonsters K C ie se w).2 in
  let living := List.filter (fun m => alive (mchar m)) (Monsters w) in
  apCredits acts = map (fun m => (monsterId m, throttled (ap w))) living
  /\ fpCredits acts = map (fun m => (monsterId m, throttled (ap w))) living
  /\ kills acts
     = map monsterId (List.filter (fun m => negb (alive (mchar m))) (Monsters w))
  /\ appearances acts = map monsterId (newMonsters (spawnCheck C ie se w)).
Proof.
  cbv zeta. unfold checkMonsters.
  destruct (Monsters_spawnCheck ie se w) as (HM & Hap & HP & HN).
  set (w1 := throttle (spawnCheck C ie se w)) in *.
  unfold monsterLoop.
  pose proof (forEachMonster_dead (Players w1) (ap w1) (Monsters w1)) as Hdead.
  unfold forEachMonster in *. cbn [fst snd] in *.
  rewrite Hdead, HM, HN.
  rewrite (map_map (visitMonster K C (Players w1) (ap w1)) (fun v => v.2)).
  unfold apCredits, fpCredits, kills, appearances.
  cbn [flat_map apCredit fpCredit]. rewrite !app_nil_l, !flat_map_app.
  rewrite !flat_map_over_concat.
  repeat split.
  - rewrite !flat_map_map_none by reflexivity. rewrite !app_nil_r.
    rewrite <- flat_map_if. apply flat_map_ext_all. intros m.
    rewrite <- Hap. apply (visitMonster_calls (Players w1) (ap w1) m).
  - rewrite !flat_map_map_none by reflexivity. rewrite !app_nil_r.
    rewrite <- flat_map_if. apply flat_map_ext_all. intros m.
    rewrite <- Hap. apply (visitMonster_calls (Players w1) (ap w1) m).
  - rewrite (flat_map_none _ (Monsters w))
      by (intros m; apply (visitMonster_quiet (Players w1) (ap w1) m)).
    rewrite (flat_map_map_none _ (fun m => Appear (id (mchar m)))) by reflexivity.
    rewrite (flat_map_map_one _ Kill (fun i => i)) by reflexivity.
    rewrite map_id, app_nil_r. reflexivity.
  - rewrite (flat_map_none _ (Monsters w))
      by (intros m; apply (visitMonster_quiet (Players w1) (ap w1) m)).
    rewrite (flat_map_map_none _ Kill) by reflexivity.
    rewrite (flat_map_map_one _ (fun m => Appear (id (mchar m))) monsterId) by reflexivity.
    reflexivity.
Qed.

Lemma partition_permutation {A B : Type} (f : A -> bool) (g : A -> B) (l : list A) :
  Permutation (map g (List.filter f l) ++ map g (List.filter (fun x => negb (f x)) l))
              (map g l).
Proof.
  induction l as [|x l IH]; cbn [List.filter map].
  - constructor.
  - destruct (f x); cbn [negb map app].
    + constructor. exact IH.
    + etransitivity; [symmetry; apply Permutation_middle|]. constructor. exact IH.
Qed.

Lemma filter_map_sublist {A B : Type} (f : A -> bool) (g : A -> B) (l : list A) :
  sublist (map g (List.filter f l)) (map g l).
Proof.
  induction l as [|x l IH]; cbn [List.filter map].
  - constructor.
  - destruct (f x); cbn [map]; [apply sublist_skip | apply sublist_cons]; exact IH.
Qed.

(** X5.  The monster pass, call by call.  Every monster of the container
    is handled exactly once: either both its reservoirs are credited, with
    the throttled amount, or it is put on the list of the dead and killed;
    the credits and the kills each follow the order of the container.
    Killing and inserting wait for the end of the loop: every kill comes
    after the calls of the loop, and the appearances of the new monsters
    after the kills. *)
Theorem checkMonsters_accounts (ie se : bool) (w : World) :
  let acts := (checkMonsters K C ie se w).2 in
  let credited := map fst (apCredits acts) in
  let container := map monsterId (Monsters w) in
  fpCredits acts = apCredits acts
  /\ Forall (fun c => c.2 = throttled (ap w)) (apCredits acts)
  /\ Permutation (credited ++ kills acts) container
  /\ sublist credited container
  /\ sublist (kills acts) container
  /\ (exists loop,
        acts = Enter :: loop ++ map Kill (kills acts)
                 ++ map Appear (appearances acts)
        /\ kills loop = [] /\ appearances loop = []).
Proof.
  cbv zeta.
  destruct (checkMonsters_handled ie se w) as (Hap & Hfp & Hk & Ha).
  rewrite Hfp, Hap, Hk, Ha. rewrite map_map. cbn [fst].
  split; [reflexivity|].
  split.
  { apply List.Forall_forall. intros c Hc. apply in_map_iff in Hc.
    destruct Hc as (m & <- & _). reflexivity. }
  split; [apply partition_permutation|].
  split; [apply filter_map_sublist|].
  split; [apply filter_map_sublist|].
  unfold checkMonsters, monsterLoop.
  destruct (Monsters_spawnCheck ie se w) as (HM & _ & _ & HN).
  set (w1 := throttle (spawnCheck C ie se w)) in *.
  pose proof (forEachMonster_dead (Players w1) (ap w1) (Monsters w1)) as Hdead.
  unfold forEachMonster in *. cbn [fst snd] in *.
  exists (List.concat
            (map (fun v => v.2) (map (visitMonster K C (Players w1) (ap w1)) (Monsters w1)))).
  rewrite Hdead, HM, HN.
  split.
  { rewrite !map_map. reflexivity. }
  rewrite (map_map (visitMonster K C (Players w1) (ap w1)) (fun v => v.2)).
  unfold kills, appearances. rewrite !flat_map_over_concat.
  split; apply flat_map_none; intros m;
    apply (visitMonster_quiet (Players w1) (ap w1) m).
Qed.


Lemma visitNPC_handled players a npc :
  let acts := (visitNPC K C players a npc).2 in
  flat_map creditedOrSpun acts = [npcId npc]
  /\ fpCredits acts = []
  /\ Forall (fun c => c.2 = a) (apCredits acts)
  /\ (forall who, In who (acted acts) -> In who (map fst (apCredits acts))).
Proof.
  unfold visitNPC, npcId.
  repeat case_match; cbn [snd];
    (split; [reflexivity|]); (split; [reflexivity|]);
    (split; [simpl; repeat constructor|]);
    intros who Hin; simpl in *; tauto.
Qed.

(** X6.  The NPC pass, call by call, on the NPCs that [deleteAllLostNPC]
    leaves.  Every one of them is handled exactly once and in the order of
    the container: its action points are credited, with [ap], or it is
    announced with a spin.  No NPC is ever credited fight points, and only
    an NPC credited in this pass takes a turn.  The container holds as many
    NPCs afterwards as it was given. *)
Theorem checkNPC_accounts (w : World) :
  let r := checkNPC K C w in
  let npcs := deleteAllLostNPC C (Npc w) in
  flat_map creditedOrSpun r.2 = map npcId npcs
  /\ fpCredits r.2 = []
  /\ Forall (fun c => c.2 = ap w) (apCredits r.2)
  /\ (forall who, In who (acted r.2) -> In who (map fst (apCredits r.2)))
  /\ length (Npc r.1) = length npcs.
Proof.
  cbv zeta. unfold checkNPC. cbn [fst snd Npc set_Npc].
  rewrite (map_map (visitNPC K C (Players w) (ap w)) snd).
  rewrite !length_map.
  unfold apCredits, fpCredits, acted.
  cbn [flat_map creditedOrSpun apCredit fpCredit]. rewrite !app_nil_l.
  rewrite !flat_map_over_concat.
  set (visit := visitNPC K C (Players w) (ap w)).
  assert (Hv : forall n, _) by (intros n; exact (visitNPC_handled (Players w) (ap w) n)).
  cbv zeta in Hv. fold visit in Hv.
  induction (deleteAllLostNPC C (Npc w)) as [|n rest IH]; cbn [flat_map map].
  - repeat split; try constructor. intros who [].
  - destruct (Hv n) as (H1 & H2 & H3 & H4).
    destruct IH as (I1 & I2 & I3 & I4 & _).
    unfold apCredits, fpCredits, acted in *.
    rewrite H1, H2, I1, I2. cbn [app].
    split; [reflexivity|]. split; [reflexivity|].
    split; [apply Forall_app; split; assumption|].
    split; [|reflexivity].
    intros who Hin. rewrite map_app. apply in_or_app.
    apply in_app_or in Hin. destruct Hin as [Hin|Hin]; [left; exact (H4 who Hin)|].
    right. exact (I4 who Hin).
Qed.


Lemma checkPlayers_logouts (now : Z) (w : World) :
  logouts (checkPlayers K C now w).2
  = map playerId (List.filter (fun p => negb (online p)) (Players w)).
Proof.
  unfold checkPlayers.
  pose proof (forEachPlayer_calls now (ap w) (Players w) false) as H. cbv zeta in H.
  destruct (forEachPlayer K C now (ap w) false (Players w)) as [[[visited saved] lost] acts].
  cbn [fst snd] in *. destruct H as (_ & _ & _ & H4 & _).
  unfold logouts in *. cbn [flat_map]. rewrite app_nil_l, flat_map_app, H4.
  destruct lost; simpl; rewrite ?app_nil_r; reflexivity.
Qed.

End Accounts.
(** ** Who is left after a pass *)

Section Populations.

Context (K : Tuning) (C : Collaborators).

Lemma erased_out (lost : list Z) (players : list Player) (q : Player) :
  In q (fold_left (fun ps i => erase i ps) lost players) -> ~ In (playerId q) lost.
Proof.
  revert players. induction lost as [|i lost IH]; intros players Hin; simpl in *.
  - tauto.
  - intros [Heq|Hlost].
    + apply erased_subset in Hin. unfold erase in Hin. apply filter_In in Hin.
      destruct Hin as [_ Hne]. unfold playerId in Heq. rewrite <- Heq in Hne.
      rewrite Z.eqb_refl in Hne. discriminate Hne.
    + exact (IH _ Hin Hlost).
Qed.

Lemma erased_length (lost : list Z) (players : list Player) :
  (length (fold_left (fun ps i => erase i ps) lost players) <= length players)%nat.
Proof.
  revert players. induction lost as [|i lost IH]; intros players; simpl.
  - lia.
  - etransitivity; [apply IH|]. unfold erase. apply List.filter_length_le.
Qed.

Lemma forEachPlayer_length now a players : forall saved,
  length (forEachPlayer K C now a saved players).1.1.1 = length players.
Proof.
  induction players as [|player rest IH]; intros saved; cbn [forEachPlayer].
  - reflexivity.
  - destruct (visitPlayer K C now a saved player) as [[[p' s1] l1] a1].
    specialize (IH s1).
    destruct (forEachPlayer K C now a s1 rest) as [[[r' s2] l2] a2].
    cbn [fst length] in *. rewrite IH. reflexivity.
Qed.

Lemma forEachPlayer_no_update now a players : forall saved,
  ~ In UpdatePlayerList (forEachPlayer K C now a saved players).2.
Proof.
  induction players as [|player rest IH]; intros saved; cbn [forEachPlayer].
  - intros [].
  - assert (Hv : ~ In UpdatePlayerList (visitPlayer K C now a saved player).2).
    { unfold visitPlayer. repeat case_match; simpl; intuition discriminate. }
    destruct (visitPlayer K C now a saved player) as [[[p' s1] l1] a1].
    specialize (IH s1).
    destruct (forEachPlayer K C now a s1 rest) as [[[r' s2] l2] a2].
    cbn [snd] in *. intros Hin. apply in_app_or in Hin. tauto.
Qed.

Lemma killed_out (dead : list Z) (monsters : list Monster) (q : Monster) :
  In q (fold_left (fun ms i => killMonster i ms) dead monsters) ->
  In q monsters /\ ~ In (monsterId q) dead.
Proof.
  revert monsters. induction dead as [|i dead IH]; intros monsters Hin; simpl in *.
  - tauto.
  - destruct (IH _ Hin) as [Hk Hout]. unfold killMonster in Hk.
    apply filter_In in Hk. destruct Hk as [Hm Hne].
    split; [exact Hm|]. intros [Heq|Hd]; [|exact (Hout Hd)].
    unfold monsterId in Heq. rewrite <- Heq, Z.eqb_refl in Hne. discriminate Hne.
Qed.

Lemma killed_length (dead : list Z) (monsters : list Monster) :
  (length (fold_left (fun ms i => killMonster i ms) dead monsters) <= length monsters)%nat.
Proof.
  revert monsters. induction dead as [|i dead IH]; intros monsters; simpl.
  - lia.
  - etransitivity; [apply IH|]. unfold killMonster. apply List.filter_length_le.
Qed.

(** X7.  The players after the player pass.  Erasing waits for the end of
    the loop and goes by id: no player left in the container carries the id
    of a player that was logged out in this pass.  [updatePlayerList] is
    called exactly when some player was logged out, and then it is the one
    call made after the loop.  The pass adds no player, and with nobody
    logged out it removes none. *)
Theorem checkPlayers_population (now : Z) (w : World) :
  let r := checkPlayers K C now w in
  (forall q, In q (Players r.1) -> ~ In (playerId q) (logouts r.2))
  /\ (In UpdatePlayerList r.2 <-> logouts r.2 <> [])
  /\ (exists loop,
        r.2 = Enter :: loop
                ++ match logouts r.2 with [] => [] | _ => [UpdatePlayerList] end
        /\ ~ In UpdatePlayerList loop /\ logouts loop = logouts r.2)
  /\ (length (Players r.1) <= length (Players w))%nat
  /\ (logouts r.2 = [] -> length (Players r.1) = length (Players w)).
Proof.
  cbv zeta.
  rewrite (checkPlayers_logouts K C now w). unfold checkPlayers in *.
  pose proof (forEachPlayer_calls K C now (ap w) (Players w) false) as Hc.
  pose proof (forEachPlayer_length now (ap w) (Players w) false) as Hl.
  pose proof (forEachPlayer_no_update now (ap w) (Players w) false) as Hq.
  cbv zeta in Hc.
  destruct (forEachPlayer K C now (ap w) false (Players w)) as [[[visited saved] lost] acts].
  cbn [fst snd] in *. destruct Hc as (_ & _ & _ & Hloop & Hlost). subst lost.
  set (offline := map playerId (List.filter (fun p => negb (online p)) (Players w))) in *.
  cbn [Players set_Players].
  split; [intros q; apply erased_out|].
  split.
  { split.
    - intros [Hen|Hin]; [discriminate Hen|].
      apply in_app_or in Hin. destruct Hin as [Hin|Hin]; [contradiction|].
      destruct offline; [destruct Hin | discriminate].
    - intros Hne. right. apply in_or_app. right.
      destruct offline; [congruence | left; reflexivity]. }
  split; [exists acts; split; [reflexivity | split; assumption]|].
  split; [rewrite <- Hl; apply erased_length|].
  intros ->. simpl. exact Hl.
Qed.

(** X8.  The monsters after the monster pass.  The container holds the
    survivors of the loop followed by the new monsters, and the new
    monsters are the ones announced, in that order; whatever waited in
    [newMonsters] before the pass is among them, and [newMonsters] is empty
    afterwards.  Killing goes by id: no survivor carries the id of a
    monster killed in this pass.  The loop adds no monster, and with nobody
    killed it removes none. *)
Theorem checkMonsters_population (ie se : bool) (w : World) :
  let r := checkMonsters K C ie se w in
  newMonsters r.1 = []
  /\ (exists survivors arrivals,
        Monsters r.1 = survivors ++ arrivals
        /\ appearances r.2 = map monsterId arrivals
        /\ (forall m, In m (newMonsters w) -> In m arrivals)
        /\ (forall m, In m survivors -> ~ In (monsterId m) (kills r.2))
        /\ (length survivors <= length (Monsters w))%nat
        /\ (kills r.2 = [] -> length survivors = length (Monsters w))).
Proof.
  cbv zeta.
  destruct (checkMonsters_handled K C ie se w) as (_ & _ & Hk & Ha).
  rewrite Hk, Ha. unfold checkMonsters.
  destruct (Monsters_spawnCheck C ie se w) as (HM & Hap & HP & HN).
  set (w1 := throttle (spawnCheck C ie se w)) in *.
  unfold monsterLoop.
  pose proof (forEachMonster_dead K C (Players w1) (ap w1) (Monsters w1)) as Hdead.
  assert (Hlen : length (forEachMonster K C (Players w1) (ap w1) (Monsters w1)).1.1
                 = length (Monsters w1))
    by (unfold forEachMonster; cbn [fst]; rewrite !length_map; reflexivity).
  destruct (forEachMonster K C (Players w1) (ap w1) (Monsters w1))
    as [[visited deadMonsters] acts].
  cbn [fst snd] in *. subst deadMonsters. rewrite HM in *.
  cbn [Monsters set_Monsters newMonsters set_newMonsters].
  split; [reflexivity|].
  eexists. exists (newMonsters (spawnCheck C ie se w)).
  split; [rewrite HN; reflexivity|]. split; [reflexivity|].
  split.
  { intros m Hin. unfold spawnCheck.
    destruct (ie && se); [|exact Hin].
    destruct (spawnAll C (SpawnList w)) as [spawns made].
    cbn [newMonsters set_newMonsters]. apply in_or_app. left. exact Hin. }
  split; [intros m Hin; exact (proj2 (killed_out _ _ _ Hin))|].
  split; [rewrite <- Hlen; apply killed_length|].
  intros ->. simpl. exact Hlen.
Qed.


End Populations.

(** ** The anchor of the in-game day task, at any time *)

(** X9.  For a time factor between 1 and 86400 the value that
    [getNextIGDayTime] hands to [from_time_t] is a whole number of in-game
    days and lies strictly after the current time counted from the birth
    time.  From the birth time on it is the first such boundary.  Before
    the birth time the truncating remainder is negative, and unless the
    current time is itself a boundary the value is not the first boundary
    after it but the second. *)
Theorem nextIGDay_next_boundary (K : Tuning) (t tm_isdst : Z) :
  0 < illarionTimeFactor K <= 86400 ->
  let day := realSecondsInIllarionDay K in
  let c := (if tm_isdst =? 0 then t else t + 3600) - illarionBirthTime K in
  let r := nextIGDay_unixtime K t tm_isdst in
  0 < day
  /\ r mod day = 0
  /\ c < r
  /\ (0 <= c -> r <= c + day)
  /\ (c < 0 -> c mod day <> 0 -> c + day < r < c + 2 * day).
Proof.
  intros Hf day c r.
  assert (Hday : 0 < day).
  { subst day. unfold realSecondsInIllarionDay. change (secondsInHour * 24) with 86400.
    rewrite quot_is_floor by lia. apply Z.div_str_pos. lia. }
  assert (Hr : r = c - Z.rem c day + day) by reflexivity.
  assert (Hv : r = (Z.quot c day + 1) * day)
    by (subst r; rewrite nextIGDay_unixtime_value; reflexivity).
  split; [exact Hday|].
  split; [rewrite Hv; apply Z.mod_mul; lia|].
  destruct (Z.le_gt_cases 0 c) as [Hc|Hc].
  - pose proof (Z.rem_bound_pos c day Hc Hday) as Hb.
    clearbody r day c. repeat split; lia.
  - assert (Hb : - day < Z.rem c day <= 0) by (apply Z.rem_bound_pos_neg; lia).
    assert (Hm : c mod day <> 0 -> Z.rem c day <> 0).
    { intros Hne Hz. apply Hne. apply Z.rem_divide in Hz; [|lia].
      apply Z.mod_divide; [lia|exact Hz]. }
    clearbody r day c. repeat split; try lia.
    all: intros _ Hne; specialize (Hm Hne); lia.
Qed.

Lemma nextIGDay_next_boundary_witness :
  let day := realSecondsInIllarionDay sampleTuning in
  let r := nextIGDay_unixtime sampleTuning 950742010 0 in
  0 < day /\ r mod day = 0 /\ 10 < r /\ (0 <= 10 -> r <= 10 + day)
  /\ (10 < 0 -> 10 mod day <> 0 -> 10 + day < r < 10 + 2 * day).
Proof.
  apply (nextIGDay_next_boundary sampleTuning 950742010 0). vm_compute.
  split; [reflexivity | discriminate].
Defined.

(** Before the birth time: ten seconds before it, with days of 28800
    seconds, the value is 28800, although 0 is a boundary after the current
    time. *)
Example nextIGDay_before_birth_time :
  nextIGDay_unixtime sampleTuning 950741990 0 = 28800.
Proof. vm_compute. reflexivity. Qed.

(** ** Command dispatch, both ways *)

Lemma splitAtSpace_whole (n : string) : noSpace n -> splitAtSpace n = (n, EmptyString).
Proof.
  unfold noSpace. induction n as [|c n IH]; intros Hn.
  - reflexivity.
  - simpl in *. apply andb_true_iff in Hn as [Hc Hn].
    apply negb_true_iff in Hc. rewrite Hc, (IH Hn). reflexivity.
Qed.

Lemma parseCommand_bare (n : string) :
  n <> ""%string -> noSpace n -> parseCommand ("!" +:+ n) = Some (n, ""%string).
Proof.
  intros Hn Hsp. change ("!" +:+ n)%string with (String "!" n).
  unfold parseCommand. change (("!" =? "!")%char) with true. cbv iota.
  rewrite (splitAtSpace_whole n Hsp).
  destruct n as [|c n]; [congruence|]. reflexivity.
Qed.

Lemma parseCommand_inv (input n a : string) :
  parseCommand input = Some (n, a) ->
  n <> ""%string /\ noSpace n /\ noLineTerminator a
  /\ (input = ("!" +:+ n +:+ " " +:+ a)%string
      \/ (a = ""%string /\ input = ("!" +:+ n)%string)).
Proof.
  unfold parseCommand. destruct input as [|c rest]; [discriminate|].
  destruct (Ascii.eqb_spec c "!") as [->|]; [|discriminate].
  pose proof (splitAtSpace_spec rest) as (Hcat & Hsp & Htail).
  destruct (splitAtSpace rest) as [name tail]. cbn [fst snd] in *.
  destruct name as [|d name]; [discriminate|].
  set (arg := match tail with String _ t0 => t0 | EmptyString => EmptyString end).
  destruct (forallb (fun c => negb (is_line_terminator c)) (list_ascii_of_string arg))
    eqn:Hlt; [|discriminate].
  intros Heq. injection Heq as <- <-.
  split; [discriminate|]. split; [exact Hsp|]. split; [exact Hlt|].
  subst arg. destruct tail as [|e t0].
  - right. split; [reflexivity|]. rewrite Hcat, append_empty_r. reflexivity.
  - left. subst e. rewrite Hcat. reflexivity.
Qed.

(** X10.  [executeUserCommand] calls a handler in exactly two cases: the
    input is an exclamation mark, a name of the command map that is not
    empty and holds no space, one space, and an argument without a line
    feed or carriage return; or it is the exclamation mark and such a name
    alone, and then the argument is empty.  The handler called is the one
    the map holds for the name, it gets the caller's user, and the call
    returns true; in every other case no handler is called and the call
    returns false. *)
Theorem dispatch_exactly {U H : Type} (user : U) (commands : gmap string H)
    (input : string) :
  (forall (handler : H) (a : string),
     executeUserCommand user input commands = (true, Some (handler, user, a))
     <-> exists n,
           commands !! n = Some handler
           /\ n <> ""%string /\ noSpace n /\ noLineTerminator a
           /\ (input = ("!" +:+ n +:+ " " +:+ a)%string
               \/ (a = ""%string /\ input = ("!" +:+ n)%string)))
  /\ (executeUserCommand user input commands = (false, None)
      \/ exists handler a,
           executeUserCommand user input commands = (true, Some (handler, user, a))).
Proof.
  rewrite executeUserCommand_parse. split.
  - intros handler a. split.
    + destruct (parseCommand input) as [[name arg]|] eqn:Hparse; [|discriminate].
      destruct (commands !! name) as [h|] eqn:Hcmd; [|discriminate].
      intros Heq. injection Heq as <- <-.
      exists name. split; [exact Hcmd|]. exact (parseCommand_inv _ _ _ Hparse).
    + intros (n & Hcmd & Hn & Hsp & Hlt & [->|[-> ->]]).
      * rewrite parseCommand_round_trip, Hcmd by assumption. reflexivity.
      * rewrite parseCommand_bare, Hcmd by assumption. reflexivity.
  - destruct (parseCommand input) as [[name arg]|]; [|left; reflexivity].
    destruct (commands !! name) as [h|]; [|left; reflexivity].
    right. exists h, arg. reflexivity.
Qed.

(** ** Targets and the radius *)

(** X11.  With the range test of the specification, a larger radius finds
    at least the targets of a smaller one, at the same position; and a
    negative radius finds nobody.  So whoever is in attack range of a
    monster is in its view range too, if that is the larger one. *)
Theorem getTargetsInRange_grows (w : World) (p : position) (r r' : Z) :
  r <= r' ->
  (forall c, In c (getTargetsInRange w p r) -> In c (getTargetsInRange w p r'))
  /\ (r' < 0 -> getTargetsInRange w p r' = []).
Proof.
  intros Hr.
  assert (Hin : forall q, isInRange p {| radius := r; zRadius := 0 |} q = true ->
                          isInRange p {| radius := r'; zRadius := 0 |} q = true).
  { intros q. rewrite !isInRange_metric. cbn [radius]. lia. }
  split.
  - intros c. rewrite !target_membership. cbv zeta.
    intros [(Hc & Ha & Hi)|(Hc & Ha & Hi & Hp)]; [left|right]; auto.
  - intros Hneg.
    assert (Hnone : forall c, ~ In c (getTargetsInRange w p r')).
    { intros c. rewrite target_membership. cbv zeta.
      rewrite isInRange_metric. cbn [radius]. lia. }
    destruct (getTargetsInRange w p r') as [|c l]; [reflexivity|].
    exfalso. apply (Hnone c). left. reflexivity.
Qed.

Lemma getTargetsInRange_grows_witness :
  (forall c, In c (getTargetsInRange besetWorld {| px := 104; py := 100; pz := 0 |} 1) ->
             In c (getTargetsInRange besetWorld {| px := 104; py := 100; pz := 0 |} 10))
  /\ (10 < 0 -> getTargetsInRange besetWorld {| px := 104; py := 100; pz := 0 |} 10 = []).
Proof.
  apply (getTargetsInRange_grows besetWorld {| px := 104; py := 100; pz := 0 |} 1 10). lia.
Defined.

(** ** The two reflections of the random wander *)

(** X12.  The two [switch] statements of the random wander act on one
    axis each, although the second one reads the direction that the first
    one may have changed: the step east or west is inverted exactly when
    the candidate field is further than [range] from the spawn point in
    [x], the step north or south exactly when it is in [y]; neither
    reflection adds or removes a component of the step.  A direction is
    determined by its two components, so this fixes the direction walked.
    Without a spawn point the direction drawn is walked. *)
Theorem wander_reflects_each_axis (s : SpawnPoint) (p : position) (dir : direction) :
  let d := wanderDirection (Some s) p dir in
  step_x d = (if getRange s <? Z.abs (xoffs s (move p dir))
              then - step_x dir else step_x dir)
  /\ step_y d = (if getRange s <? Z.abs (yoffs s (move p dir))
                 then - step_y dir else step_y dir)
  /\ (forall d1 d2, step_x d1 = step_x d2 -> step_y d1 = step_y d2 -> d1 = d2)
  /\ wanderDirection None p dir = dir.
Proof.
  cbv zeta. unfold wanderDirection.
  destruct (getRange s <? Z.abs (xoffs s (move p dir)));
    destruct (getRange s <? Z.abs (yoffs s (move p dir)));
    (split; [destruct dir; reflexivity|]);
    (split; [destruct dir; reflexivity|]);
    (split; [|reflexivity]);
    intros d1 d2; destruct d1, d2; simpl; intros H1 H2;
      first [reflexivity | discriminate H1 | discriminate H2].
Qed.
(** ** Loading the spawn points: what is left in the world *)

Lemma readRows_prefix (C : Collaborators) (rows : list Row) : forall acc,
  exists loaded,
    (readRows C rows acc).1 = acc ++ loaded
    /\ Forall2 (fun row s => readRow C row = Some s)
               (firstn (length loaded) rows) loaded
    /\ (if (readRows C rows acc).2 then length loaded = length rows
        else exists row, nth_error rows (length loaded) = Some row
                         /\ readRow C row = None).
Proof.
  induction rows as [|row rest IH]; intros acc; cbn [readRows].
  - exists []. rewrite app_nil_r. repeat split. constructor.
  - destruct (readRow C row) as [newSpawn|] eqn:Hrow.
    + destruct (IH (acc ++ [newSpawn])) as (loaded & Hl & Hf & Hend).
      exists (newSpawn :: loaded). rewrite Hl, <- app_assoc.
      split; [reflexivity|]. split; [constructor; assumption|].
      destruct (readRows C rest (acc ++ [newSpawn])).2; cbn [length nth_error].
      * rewrite Hend. reflexivity.
      * exact Hend.
    + exists []. rewrite app_nil_r. split; [reflexivity|].
      split; [constructor|]. exists row. split; [reflexivity | exact Hrow].
Qed.

(** X13.  What [initRespawns] leaves in the world, whatever it returns.
    Every monster has been removed from its spawn point and has no spawn
    point afterwards.  The spawn list is built from nothing: it does not
    depend on the list before the call, and it holds the spawn points of
    the rows up to the first row that cannot be read or loaded, in the
    order of the rows.  So a failure half way leaves a partial list in the
    world, and a query that throws leaves an empty one.  Players, NPCs and
    the action point ledger are not touched. *)
Theorem initRespawns_rebuilds (C : Collaborators) (results : option (list Row))
    (w : World) :
  let r := initRespawns C results w in
  Forall (fun m => getSpawn m = None) (Monsters r.1)
  /\ length (Monsters r.1) = length (Monsters w)
  /\ (forall old, SpawnList (initRespawns C results (set_SpawnList old w)).1
                  = SpawnList r.1)
  /\ match results with
     | Some rows =>
         Forall2 (fun row s => readRow C row = Some s)
                 (firstn (length (SpawnList r.1)) rows) (SpawnList r.1)
         /\ (r.2 = false -> rows <> [] ->
             exists row, nth_error rows (length (SpawnList r.1)) = Some row
                         /\ readRow C row = None)
     | None => SpawnList r.1 = []
     end
  /\ Players r.1 = Players w /\ Npc r.1 = Npc w
  /\ usedAP r.1 = usedAP w /\ ap r.1 = ap w.
Proof.
  cbv zeta. unfold initRespawns.
  assert (Hdetached : forall l : list Monster,
             Forall (fun m => getSpawn m = None)
                    (map (fun m => setSpawn None (remove C m)) l)).
  { intros l. induction l as [|m l IH]; cbn [map]; constructor;
      [reflexivity | exact IH]. }
  destruct results as [rows|].
  - destruct rows as [|row rest].
    + cbn [fst snd Monsters set_SpawnList set_Monsters SpawnList firstn length].
      split; [apply Hdetached|]. split; [apply length_map|].
      split; [reflexivity|]. split; [|repeat split; reflexivity].
      split; [constructor | congruence].
    + destruct (readRows_prefix C (row :: rest) []) as (loaded & Hl & Hf & Hend).
      destruct (readRows C (row :: rest) []) as [spawns finished].
      cbn [fst snd] in Hl, Hend. rewrite app_nil_l in Hl. subst spawns.
      cbn [fst snd Monsters set_SpawnList set_Monsters SpawnList].
      split; [apply Hdetached|]. split; [apply length_map|].
      split; [reflexivity|]. split; [|repeat split; reflexivity].
      split; [exact Hf|]. intros -> _. exact Hend.
  - cbn [fst snd Monsters set_SpawnList set_Monsters SpawnList].
    split; [apply Hdetached|]. split; [apply length_map|].
    repeat split; reflexivity.
Qed.

(** ** The singleton *)

(** X14.  [World::create] makes the world once.  After a call [get]
    returns the world and does not throw; a further call, whatever the
    spawn point table holds by then, returns that same world and changes
    nothing, so the spawn points are not loaded again; and a world that
    already exists is what the first call returns too.  Before any call
    [get] throws. *)
Theorem create_makes_one_world (C : Collaborators) (S : Startup)
    (results results' : option (list Row)) (self : option World) :
  let self1 := create C S results self in
  (exists w, self1 = Some w /\ get self1 = Returned w)
  /\ create C S results' self1 = self1
  /\ (forall w, self = Some w -> self1 = Some w)
  /\ (forall w, get self = Returned w <-> self = Some w)
  /\ (self = None ->
      get self = Thrown "world was not created"
      /\ self1 = Some (InitPlayerCommands S
                         (InitGMCommands S (initRespawns C results (newWorld S)).1))).
Proof.
  cbv zeta. destruct self as [w0|]; cbn [create get].
  - split; [exists w0; split; reflexivity|]. split; [reflexivity|].
    split; [intros w Hw; exact Hw|]. split; [|discriminate].
    intros w. split; intros Hw; congruence.
  - split; [eexists; split; reflexivity|]. split; [reflexivity|].
    split; [discriminate|]. split; [|intros _; split; reflexivity].
    intros w. split; discriminate.
Qed.

(** ** The queue of immediate commands *)

Section ImmediateCommands.

Context {S : Type} (isOnline : S -> Z -> bool) (workout : Z -> S -> S).



End ImmediateCommands.

(** Three queued players; the commands of player 7 log player 9 out, who
    is then passed over although online when queued. *)
Example immediate_commands_sample :
  checkPlayerImmediateCommands
    (fun offline player => negb (existsb (Z.eqb player) offline))
    (fun player offline => if player =? 7 then 9 :: offline else offline)
    [7; 9; 8] []
  = ([9], [7; 8]).
Proof. vm_compute. reflexivity. Qed.

(** ** The turn of a monster *)

Section Turn.

Context (K : Tuning) (A : Answers) (MONSTERVIEWRANGE : Z) (w : World).

Lemma chooseTarget_calls st candidates :
  Forall (fun c => c = SetTarget st \/ c = FightingSetTarget st)
         (chooseTarget A st candidates).2
  /\ (In (SetTarget st) (chooseTarget A st candidates).2
      <-> hasMonsterScript (monStruct A) = true)
  /\ (hasMonsterScript (monStruct A) = false ->
      In (FightingSetTarget st) (chooseTarget A st candidates).2).
Proof.
  unfold chooseTarget. destruct (hasMonsterScript (monStruct A)).
  - destruct (scriptSetTarget A st candidates) as [[|] target]; cbn [snd];
      (split; [|split; [split; [reflexivity | intros _; left; reflexivity]
                       | discriminate]]).
    + constructor; [left; reflexivity | constructor].
    + constructor; [left; reflexivity|].
      constructor; [right; reflexivity | constructor].
  - cbn [snd]. split; [|split].
    + constructor; [right; reflexivity | constructor].
    + split; [|discriminate].
      intros Hin. simpl in Hin. destruct Hin as [Hin|[]]. discriminate Hin.
    + intros _. left. reflexivity.
Qed.

Lemma observe_calls st candidates :
  Forall (fun c => isDeed c = false /\ c <> MakeMove /\ c <> AbortRoute)
         (observe A st candidates).
Proof.
  unfold observe. destruct candidates as [|c0 l]; [constructor|].
  pose proof (chooseTarget_calls st (c0 :: l)) as [Hc _].
  destruct (chooseTarget A st (c0 :: l)) as [target chosen]. cbn [snd] in Hc.
  assert (Hchosen : Forall (fun c => isDeed c = false /\ c <> MakeMove /\ c <> AbortRoute)
                           chosen).
  { eapply List.Forall_impl; [|exact Hc]. intros c [->| ->]; repeat split; discriminate. }
  destruct target as [t|]; [|exact Hchosen].
  destruct (foundMonster A && hasMonsterScript (monStruct A));
    apply Forall_app; (split; [exact Hchosen|]);
    destruct st; repeat constructor; discriminate.
Qed.

(** X16.  The calls of a monster on a route: it only watches and follows
    its waypoints.  It does not turn to anybody, attack, step towards a
    target, heal or take a random step.  It makes exactly one waypoint
    move, after both searches; if that move fails, one more call follows
    it, [abortRoute] for a monster whose description exists and has a
    script, a log line otherwise; if it succeeds, the move is the last
    call. *)
Theorem turn_on_route_observes (m : Mind) :
  onRoute (mchar (body m)) = true ->
  let calls := (monsterTurn K A MONSTERVIEWRANGE w m).2 in
  Forall (fun c => isDeed c = false) calls
  /\ (exists observed,
        calls = observed ++ MakeMove
                  :: (if waypointMove A then []
                      else if foundMonster A && hasMonsterScript (monStruct A)
                           then [AbortRoute] else [LogMissing])
        /\ Forall (fun c => isDeed c = false /\ c <> MakeMove /\ c <> AbortRoute)
                  observed)
  /\ (In AbortRoute calls
      <-> waypointMove A = false
          /\ foundMonster A = true /\ hasMonsterScript (monStruct A) = true).
Proof.
  intros Hroute calls. subst calls. unfold monsterTurn. rewrite Hroute.
  unfold turnOnRoute.
  set (here := pos (mchar (body m))).
  pose proof (observe_calls Near (getTargetsInRange w here (attackRange A m))) as H1.
  pose proof (observe_calls InView (getTargetsInRange w here MONSTERVIEWRANGE)) as H2.
  set (calls1 := observe A Near _) in *. set (calls2 := observe A InView _) in *.
  assert (H12 : Forall (fun c => isDeed c = false /\ c <> MakeMove /\ c <> AbortRoute)
                       (calls1 ++ calls2)) by (apply Forall_app; split; assumption).
  assert (Hshape : (if waypointMove A
                    then (m, calls1 ++ calls2 ++ [MakeMove])
                    else (with_body
                            (with_mchar (setOnRoute false (mchar (body m))) (body m)) m,
                          calls1 ++ calls2 ++ [MakeMove]
                            ++ (if foundMonster A && hasMonsterScript (monStruct A)
                                then [AbortRoute] else [LogMissing]))).2
                   = (calls1 ++ calls2) ++ MakeMove
                       :: (if waypointMove A then []
                           else if foundMonster A && hasMonsterScript (monStruct A)
                                then [AbortRoute] else [LogMissing])).
  { destruct (waypointMove A); cbn [snd]; rewrite <- app_assoc; reflexivity. }
  rewrite Hshape. clearbody calls1 calls2. generalize dependent (calls1 ++ calls2).
  intros observed Hobs _. clear H1 H2.
  assert (Hdeed : Forall (fun c => isDeed c = false) observed)
    by (eapply List.Forall_impl; [|exact Hobs]; intros c (Hd & _); exact Hd).
  assert (Habort : ~ In AbortRoute observed).
  { intros Hin. rewrite List.Forall_forall in Hobs.
    destruct (Hobs _ Hin) as (_ & _ & Hne). congruence. }
  split; [|split].
  - apply Forall_app. split; [exact Hdeed|].
    destruct (waypointMove A); [repeat constructor|].
    destruct (foundMonster A && hasMonsterScript (monStruct A)); repeat constructor.
  - exists observed. split; [reflexivity | exact Hobs].
  - split.
    + intros Hin. apply in_app_or in Hin.
      destruct Hin as [Hin|[Hin|Hin]]; [contradiction | discriminate Hin|].
      destruct (waypointMove A); [destruct Hin|].
      destruct (foundMonster A), (hasMonsterScript (monStruct A)); cbn [andb] in Hin;
        destruct Hin as [Hin|[]]; try discriminate Hin; repeat split; reflexivity.
    + intros (Hw & Hf & Hs). rewrite Hw, Hf, Hs. apply in_or_app.
      right. right. left. reflexivity.
Qed.









(** X19.  The memory of the last target, in calls.  Take a monster that is
    not on a route and, both in attack range and in view range, either has
    nobody in range or cannot attack.  If it remembers having seen its
    target at a position other than its own, its one call is a step towards
    that position.  If it stands on the remembered position or remembers
    nothing, it makes no step towards anything: it heals, if the random
    draw, the existence of its description and [canselfheal] all say so,
    and takes a random step in the reflected direction otherwise, after a
    log line if its description is missing. *)
Theorem turn_without_target (m : Mind) :
  let here := pos (mchar (body m)) in
  onRoute (mchar (body m)) = false ->
  getTargetsInRange w here (attackRange A m) = [] \/ canAttack A Near = false ->
  getTargetsInRange w here MONSTERVIEWRANGE = [] \/ canAttack A InView = false ->
  let calls := (monsterTurn K A MONSTERVIEWRANGE w m).2 in
  (lastTargetSeen m = true -> here <> lastTargetPosition m ->
     calls = [PerformStep (lastTargetPosition m)])
  /\ (lastTargetSeen m = false \/ here = lastTargetPosition m ->
        calls
        = (if foundMonster A then [] else [LogMissing])
            ++ [if makesRandomStep A && foundMonster A && canselfheal (monStruct A)
                then Heal
                else Move (wanderDirection (getSpawn (body m)) here (drawnDirection A))]).
Proof.
  intros here Hroute Hnear Hview calls. subst calls. unfold monsterTurn. rewrite Hroute.
  unfold turnOffRoute. fold here.
  set (m0 := if position_eqb here (lastTargetPosition m) then forget m else m).
  assert (Hm0 : pos (mchar (body m0)) = here /\ attackRange A m0 = attackRange A m
                /\ body m0 = body m /\ lastTargetPosition m0 = lastTargetPosition m).
  { subst m0. destruct (position_eqb here (lastTargetPosition m)); repeat split. }
  destruct Hm0 as (Hpos & Hrange & Hbody & Hlast).
  assert (Hn : nearStage A w m0 = (m0, [], NotAttacked)).
  { unfold nearStage. rewrite Hpos, Hrange.
    destruct Hnear as [-> | Hcan]; [reflexivity|].
    rewrite Hcan. destruct (getTargetsInRange w here (attackRange A m)); reflexivity. }
  rewrite Hn.
  assert (Hv : viewStage K A MONSTERVIEWRANGE w m0
               = if lastTargetSeen m0 then (m0, [PerformStep (lastTargetPosition m0)])
                 else idleStage K A m0).
  { unfold viewStage. rewrite Hpos.
    destruct Hview as [-> | Hcan]; [reflexivity|].
    rewrite Hcan, andb_false_r. reflexivity. }
  rewrite Hv. clear Hn Hv.
  assert (Hidle : (idleStage K A m0).2
                  = (if foundMonster A then [] else [LogMissing])
                      ++ [if makesRandomStep A && foundMonster A
                             && canselfheal (monStruct A)
                          then Heal
                          else Move (wanderDirection (getSpawn (body m)) here
                                       (drawnDirection A))]).
  { unfold idleStage. rewrite Hbody. fold here.
    destruct (makesRandomStep A && foundMonster A && canselfheal (monStruct A));
      reflexivity. }
  assert (Hseen : lastTargetSeen m0
                  = lastTargetSeen m && negb (position_eqb here (lastTargetPosition m))).
  { subst m0. destruct (position_eqb here (lastTargetPosition m)); cbn [lastTargetSeen forget];
      [rewrite andb_false_r | rewrite andb_true_r]; reflexivity. }
  rewrite Hseen, Hlast.
  destruct (idleStage K A m0) as [m2 idle]. cbn [snd] in Hidle. subst idle.
  split.
  - intros Hs Hne. rewrite Hs.
    assert (Hneq : position_eqb here (lastTargetPosition m) = false).
    { apply not_true_iff_false. intros E. apply position_eqb_eq in E. contradiction. }
    rewrite Hneq. reflexivity.
  - intros [Hs | He].
    + rewrite Hs. reflexivity.
    + apply position_eqb_eq in He. rewrite He, andb_false_r. reflexivity.
Qed.

End Turn.

(** A monster on a route in the sample world with a player next to it:
    its script is told of the enemy near and in sight, the waypoint move
    fails, the route is aborted. *)
Lemma turn_on_route_observes_witness :
  let calls := (monsterTurn sampleTuning vetoingAnswers 10 besetWorld
                  (routedMind 104 100)).2 in
  calls = [SetTarget Near; EnemyNear 1; SetTarget InView; EnemyOnSight 1;
           MakeMove; AbortRoute]
  /\ Forall (fun c => isDeed c = false) calls.
Proof.
  pose proof (turn_on_route_observes sampleTuning vetoingAnswers 10 besetWorld
                (routedMind 104 100) eq_refl) as H.
  cbv zeta in *. split; [vm_compute; reflexivity | exact (proj1 H)].
Defined.


(** Alone in the world and remembering a target seen at (110, 100), the
    monster steps towards that field. *)
Lemma turn_without_target_witness :
  (monsterTurn sampleTuning vetoingAnswers 10 emptyWorld
     (sampleMind 104 100 true 110 100)).2
  = [PerformStep {| px := 110; py := 100; pz := 0 |}].
Proof.
  refine (proj1 (turn_without_target sampleTuning vetoingAnswers 10 emptyWorld
                   (sampleMind 104 100 true 110 100) eq_refl _ _) eq_refl _).
  - left. vm_compute. reflexivity.
  - left. vm_compute. reflexivity.
  - vm_compute. discriminate.
Defined.
